(** * quantsumore: the HTTP response normalizer, the request dispatcher
      and the mapping resolver of [_http/response_utils.py]

    The development is a shallow embedding of three functions of
    [src/_http/response_utils.py]:

    - [normalize_response] with its inner helpers [normalize],
      [deep_parse_json] and [process_result];
    - [Request], the dispatcher that overrides headers on the shared
      connection client, fetches and normalizes;
    - [key_from_mapping], the label resolver.

    Python values are a tagged tree, Python exceptions are an explicit
    outcome, and the recursion through [json.loads] is bounded by fuel:
    a decoded value is smaller than the string it came from, so the
    weight of the payload is always enough fuel. *)

From Stdlib Require Import List String Ascii ZArith Lia Bool Arith PeanoNat.
Import ListNotations.
Local Open Scope string_scope.
Local Open Scope list_scope.

#[local] Set Warnings "-register-all".

(** ** Python values *)

(** The values a payload is made of.  A dict is kept as its list of
    items in insertion order (Python dicts iterate in that order and
    hold each key once); everything that is neither a dict, a list nor a
    str takes the final [else] branch of the code and is a scalar. *)
Inductive value : Type :=
| VNone
| VBool (b : bool)
| VInt (z : Z)
| VStr (s : string)
| VList (items : list value)
| VDict (entries : list (string * value)).

(** A dict with str keys: its items, in insertion order. *)
Definition dict_of (A : Type) : Type := list (string * A).

Definition dict := dict_of value.

(** [key in d] followed by [d[key]]. *)
Fixpoint dict_get {A} (d : dict_of A) (key : string) : option A :=
  match d with
  | [] => None
  | (k, v) :: rest => if String.eqb k key then Some v else dict_get rest key
  end.

(** [d[key] = v]: an existing key keeps its place and takes the new
    value, a new key goes to the end. *)
Fixpoint dict_set {A} (d : dict_of A) (key : string) (v : A) : dict_of A :=
  match d with
  | [] => [(key, v)]
  | (k, x) :: rest =>
    if String.eqb k key then (k, v) :: rest else (k, x) :: dict_set rest key v
  end.

(** [d.values()] *)
Definition dict_values {A} (d : dict_of A) : list A := map snd d.

(** [d.keys()] *)
Definition dict_keys {A} (d : dict_of A) : list string := map fst d.

(** The measure that bounds every walk: one per node plus the length of
    a string. *)
Fixpoint weight (v : value) : nat :=
  match v with
  | VStr s => S (String.length s)
  | VList l => S ((fix sum (l : list value) : nat :=
                     match l with
                     | [] => 0
                     | x :: r => weight x + sum r
                     end) l)
  | VDict d => S ((fix sum (d : dict) : nat :=
                     match d with
                     | [] => 0
                     | (_, x) :: r => weight x + sum r
                     end) d)
  | _ => 1
  end.

Definition weights (l : list value) : nat :=
  fold_right (fun x n => weight x + n) 0 l.

(** ** Outcomes of a Python call *)

(** The exceptions the modelled code can meet. *)
Inductive exn : Type :=
| JSONDecodeError
| IndexError
| KeyError
| TypeError.

Definition exn_eqb (a b : exn) : bool :=
  match a, b with
  | JSONDecodeError, JSONDecodeError
  | IndexError, IndexError
  | KeyError, KeyError
  | TypeError, TypeError => true
  | _, _ => false
  end.

(** A call returns, raises, or exhausts the fuel of the model. *)
Inductive outcome (A : Type) : Type :=
| Returns (a : A)
| Raises (e : exn)
| OutOfFuel.

Arguments Returns {A} a.
Arguments Raises {A} e.
Arguments OutOfFuel {A}.

Definition bind {A B} (c : outcome A) (k : A -> outcome B) : outcome B :=
  match c with
  | Returns a => k a
  | Raises e => Raises e
  | OutOfFuel => OutOfFuel
  end.

Declare Scope outcome_scope.
Delimit Scope outcome_scope with outcome.
Notation "x <- c ;; k" := (bind c (fun x => k))
  (at level 61, c at next level, right associativity) : outcome_scope.
Local Open Scope outcome_scope.

(** [try: body except e: handler] *)
Definition try_except {A} (body : outcome A) (e : exn) (handler : outcome A)
  : outcome A :=
  match body with
  | Raises e' => if exn_eqb e e' then handler else Raises e'
  | o => o
  end.

(** [try: body except: handler], the bare clause that catches all. *)
Definition try_except_all {A} (body : outcome A) (handler : outcome A)
  : outcome A :=
  match body with
  | Raises _ => handler
  | o => o
  end.

(** [for x in xs: body], threading the state the body mutates. *)
Fixpoint for_each {A S} (xs : list A) (body : A -> S -> outcome S) (s : S)
  : outcome S :=
  match xs with
  | [] => Returns s
  | x :: rest => s' <- body x s ;; for_each rest body s'
  end.

(** [[f(x) for x in xs]] *)
Fixpoint comprehension {A B} (f : A -> outcome B) (xs : list A)
  : outcome (list B) :=
  match xs with
  | [] => Returns []
  | x :: rest => y <- f x ;; ys <- comprehension f rest ;; Returns (y :: ys)
  end.

(** [xs[i]] *)
Definition index {A} (xs : list A) (i : nat) : outcome A :=
  match nth_error xs i with
  | Some x => Returns x
  | None => Raises IndexError
  end.

(** [for r in result]: what iterating over a value yields. *)
Definition iterate (v : value) : outcome (list value) :=
  match v with
  | VList l => Returns l
  | VDict d => Returns (map VStr (dict_keys d))
  | VStr s => Returns (map (fun c => VStr (String c EmptyString))
                            (list_ascii_of_string s))
  | _ => Raises TypeError
  end.

(** ** The response normalizer *)

Section Normalizer.

(** [json.loads] on a str: [None] stands for [json.JSONDecodeError]. *)
Variable loads : string -> option value.

Definition json_loads (s : string) : outcome value :=
  match loads s with
  | Some v => Returns v
  | None => Raises JSONDecodeError
  end.

(** The inner [normalize].  [results] is the list the Python code
    appends to and shares between the recursive calls; each call
    returns it as it stands after its appends. *)
Fixpoint normalize (fuel : nat) (response : value) (target_key : string)
    (keep_structure : bool) (results : option (list value))
  : outcome (list value) :=
  match fuel with
  | O => OutOfFuel
  | S fuel' =>
    let results := match results with None => [] | Some r => r end in
    match response with
    | VDict d =>
      let results :=
        match dict_get d target_key with
        | Some v =>
          if keep_structure
          then results ++ [VDict [(target_key, v)]]
          else results ++ [v]
        | None => results
        end in
      for_each (dict_values d)
        (fun value results =>
           normalize fuel' value target_key keep_structure (Some results))
        results
    | VList l =>
      for_each l
        (fun item results =>
           normalize fuel' item target_key keep_structure (Some results))
        results
    | VStr s =>
      try_except
        (parsed_response <- json_loads s ;;
         normalize fuel' parsed_response target_key keep_structure
           (Some results))
        JSONDecodeError
        (Returns results)
    | _ => Returns results
    end
  end.

(** The inner [deep_parse_json]. *)
Fixpoint deep_parse_json (fuel : nat) (input_data : value) : outcome value :=
  match fuel with
  | O => OutOfFuel
  | S fuel' =>
    match input_data with
    | VStr s =>
      try_except
        (parsed_data <- json_loads s ;; deep_parse_json fuel' parsed_data)
        JSONDecodeError
        (Returns input_data)
    | VDict d =>
      d' <- comprehension
              (fun kv : string * value =>
                 v' <- deep_parse_json fuel' (snd kv) ;;
                 Returns (fst kv, v'))
              d ;;
      Returns (VDict d')
    | VList l =>
      l' <- comprehension (deep_parse_json fuel') l ;;
      Returns (VList l')
    | _ => Returns input_data
    end
  end.

(** The inner [process_result]. *)
Definition process_result (fuel : nat) (result : value) (multiple : bool)
  : outcome value :=
  if multiple then
    rs <- iterate result ;;
    rs' <- comprehension (deep_parse_json fuel) rs ;;
    Returns (VList rs')
  else
    match result with
    | VList l =>
      try_except
        (first <- index l 0 ;; deep_parse_json fuel first)
        JSONDecodeError
        (deep_parse_json fuel result)
    | _ => deep_parse_json fuel result
    end.

Definition normalize_response (fuel : nat) (response : value)
    (target_key : string) (onlyNormalize keep_structure : bool)
  : outcome value :=
  if onlyNormalize then deep_parse_json fuel response
  else
    data <- normalize fuel response target_key keep_structure None ;;
    let multi := if Nat.eqb (List.length data) 1 then false else true in
    result <- (if Nat.eqb (List.length data) 1 then index data 0
               else Returns (VList data)) ;;
    process_result fuel result multi.


(** *** The walk, as the specification words it

    A mapping that holds the target key records the value under it (or
    a single-entry mapping around it when the structure is kept), then
    every value of the mapping is walked; the elements of a sequence are
    walked in order; a string that decodes is walked as its decoded
    value, a string that does not is a leaf. *)

Definition recorded (target_key : string) (keep_structure : bool) (v : value)
  : value :=
  if keep_structure then VDict [(target_key, v)] else v.

Definition own_match (target_key : string) (keep_structure : bool) (d : dict)
  : list value :=
  match dict_get d target_key with
  | Some v => [recorded target_key keep_structure v]
  | None => []
  end.

Inductive discovers (tk : string) (ks : bool) : value -> list value -> Prop :=
| discovers_dict d ms :
    discovers_each tk ks (dict_values d) ms ->
    discovers tk ks (VDict d) (own_match tk ks d ++ ms)
| discovers_list l ms :
    discovers_each tk ks l ms ->
    discovers tk ks (VList l) ms
| discovers_decoded s v ms :
    loads s = Some v ->
    discovers tk ks v ms ->
    discovers tk ks (VStr s) ms
| discovers_leaf s :
    loads s = None ->
    discovers tk ks (VStr s) []
| discovers_none : discovers tk ks VNone []
| discovers_bool b : discovers tk ks (VBool b) []
| discovers_int z : discovers tk ks (VInt z) []
with discovers_each (tk : string) (ks : bool)
  : list value -> list value -> Prop :=
| discovers_nil : discovers_each tk ks [] []
| discovers_cons v vs m ms :
    discovers tk ks v m ->
    discovers_each tk ks vs ms ->
    discovers_each tk ks (v :: vs) (m ++ ms).

Scheme discovers_mind := Minimality for discovers Sort Prop
  with discovers_each_mind := Minimality for discovers_each Sort Prop.
Combined Scheme discovers_mutind from discovers_mind, discovers_each_mind.

(** The target key occurs [n] times in the payload. *)
Definition occurs (tk : string) (payload : value) (n : nat) : Prop :=
  exists ms, discovers tk false payload ms /\ List.length ms = n.

(** A value in which no string decodes any further. *)
Inductive irreducible : value -> Prop :=
| irreducible_none : irreducible VNone
| irreducible_bool b : irreducible (VBool b)
| irreducible_int z : irreducible (VInt z)
| irreducible_str s : loads s = None -> irreducible (VStr s)
| irreducible_list l : Forall irreducible l -> irreducible (VList l)
| irreducible_dict d :
    Forall irreducible (dict_values d) -> irreducible (VDict d).

(** The decoder yields values smaller than the string they are read
    from: every node of the value costs a character, and so does every
    character of a string in it. *)
Definition shrinking : Prop :=
  forall s v, loads s = Some v -> weight v <= String.length s.

End Normalizer.

(** ** The request dispatcher *)

(** What [get_headers] reports for a header: a str, or Python's [None]. *)
Definition header_value := option string.

(** [url]: one URL or a list of URLs. *)
Inductive url_arg : Type :=
| UrlStr (u : string)
| UrlList (us : list string).

(** Modelled from the spec: the connection client [http_client] of
    [_http/connection.py], which is not among the sources.  It is one
    shared, mutable object: every method takes the state of the client
    and gives the new one.  [get_headers] returns the currently active
    value of a header and [update_header] replaces the value of that
    header only; a fetch may change the client in any way and may
    raise. *)
Record connection : Type := {
  client : Type;
  get_headers : client -> string -> header_value;
  update_header : client -> string -> header_value -> client;
  update_base_url : client -> string -> client;
  make_request :
    client -> dict_of string -> bool -> bool -> bool ->
    client * outcome value;
  make_requests_concurrently :
    client -> list string -> dict_of string -> bool -> bool ->
    client * outcome value;
  get_update_same :
    forall c h v, get_headers (update_header c h v) h = v;
  get_update_other :
    forall c h h' v, h <> h' ->
      get_headers (update_header c h v) h' = get_headers c h'
}.

Section Dispatcher.

Variable loads : string -> option value.
Variable conn : connection.

(** The headers the call overrides: the caller's, with [Accept] forced
    for the json format. *)
Definition effective_headers (headers_to_update : option (dict_of string))
    (response_format : string) : dict_of string :=
  let headers_to_update :=
    match headers_to_update with None => [] | Some h => h end in
  if String.eqb response_format "json"
  then dict_set headers_to_update "Accept" "application/json"
  else headers_to_update.

(** The first loop of [Request]: read the original value, then write
    the override. *)
Definition capture_and_override (headers_to_update : dict_of string)
    (c : client conn) : client conn * dict_of header_value :=
  fold_left
    (fun (st : client conn * dict_of header_value) (hv : string * string) =>
       let (c, original_headers) := st in
       let (header, value) := hv in
       let original_headers :=
         dict_set original_headers header (get_headers conn c header) in
       (update_header conn c header (Some value), original_headers))
    headers_to_update (c, []).

(** The client once the first loop has written every override. *)
Definition overridden (headers_to_update : dict_of string) (c : client conn)
  : client conn :=
  fold_left
    (fun c (hv : string * string) =>
       update_header conn c (fst hv) (Some (snd hv)))
    headers_to_update c.

(** The second loop of [Request]: write the original values back. *)
Definition restore_headers (original_headers : dict_of header_value)
    (c : client conn) : client conn :=
  fold_left
    (fun c (hv : string * header_value) =>
       let (header, original_value) := hv in
       update_header conn c header original_value)
    original_headers c.

(** The fetch: concurrent for a list of more than one URL, single
    otherwise, after the base URL is set when [url] is a str. *)
Definition fetch (url : url_arg) (params : dict_of string)
    (return_url : bool) (c : client conn) : client conn * outcome value :=
  match url with
  | UrlList us =>
    if Nat.ltb 1 (List.length us)
    then make_requests_concurrently conn c us params return_url false
    else make_request conn c params false return_url true
  | UrlStr u =>
    make_request conn (update_base_url conn c u) params false return_url true
  end.

(** [Request]: the state of the shared client after the call and the
    outcome of the call.  An exception of the fetch leaves the function
    at once, before the headers are written back. *)
Definition Request (c : client conn) (url : url_arg)
    (headers_to_update : option (dict_of string)) (response_format : string)
    (target_response_key : string) (return_url onlyParse no_content : bool)
    (fuel : nat) : client conn * outcome value :=
  let headers_to_update :=
    effective_headers headers_to_update response_format in
  let (c, original_headers) := capture_and_override headers_to_update c in
  let params := [("format", response_format)] in
  let (c, fetched) := fetch url params return_url c in
  match fetched with
  | Returns response =>
    let c := restore_headers original_headers c in
    (c, try_except_all
          (normalize_response loads fuel response target_response_key
             onlyParse no_content)
          (Returns response))
  | Raises e => (c, Raises e)
  | OutOfFuel => (c, OutOfFuel)
  end.

End Dispatcher.

(** *** A client for the examples

    Headers in a dict, a base URL, and the reply the next fetch gives. *)
Record stub_client : Type := {
  stub_headers : dict_of header_value;
  stub_base_url : string;
  stub_reply : outcome value
}.

Definition stub_get_headers (c : stub_client) (header : string)
  : header_value :=
  match dict_get (stub_headers c) header with
  | Some v => v
  | None => None
  end.

Definition stub_update_header (c : stub_client) (header : string)
    (v : header_value) : stub_client :=
  {| stub_headers := dict_set (stub_headers c) header v;
     stub_base_url := stub_base_url c;
     stub_reply := stub_reply c |}.

Definition stub_update_base_url (c : stub_client) (url : string)
  : stub_client :=
  {| stub_headers := stub_headers c;
     stub_base_url := url;
     stub_reply := stub_reply c |}.

Definition stub_connection : connection.
Proof.
  refine {|
    client := stub_client;
    get_headers := stub_get_headers;
    update_header := stub_update_header;
    update_base_url := stub_update_base_url;
    make_request := fun c _ _ _ _ => (c, stub_reply c);
    make_requests_concurrently := fun c _ _ _ _ => (c, stub_reply c)
  |}.
  - intros [hs u r] h v. unfold stub_get_headers, stub_update_header. simpl.
    induction hs as [|[k x] rest IH]; simpl.
    + now rewrite String.eqb_refl.
    + destruct (String.eqb k h) eqn:E; simpl; rewrite E; [reflexivity|].
      exact IH.
  - intros [hs u r] h h' v Hne.
    unfold stub_get_headers, stub_update_header. simpl.
    induction hs as [|[k x] rest IH]; simpl.
    + destruct (String.eqb_spec h h'); [contradiction | reflexivity].
    + destruct (String.eqb_spec k h) as [->|Hk]; simpl.
      * destruct (String.eqb_spec h h'); [contradiction | reflexivity].
      * destruct (String.eqb k h'); [reflexivity | exact IH].
Defined.

(** The client of the examples: one header set, and a reply that is a
    mapping with an empty list under the target key. *)
Definition client0 : stub_client :=
  {| stub_headers := [("Accept", Some "text/html")];
     stub_base_url := "";
     stub_reply := Returns (VDict [("response", VList [])]) |}.

(** ** The mapping resolver *)

(** Strings are taken as ASCII text: [str.lower] moves [A]..[Z] to
    [a]..[z], [str.strip] drops the characters [str.isspace] accepts
    (tab to carriage return, the four separators 28..31 and the space)
    from both ends. *)
Definition lower_ascii (c : ascii) : ascii :=
  let n := nat_of_ascii c in
  if andb (Nat.leb 65 n) (Nat.leb n 90) then ascii_of_nat (n + 32) else c.

Fixpoint lower (s : string) : string :=
  match s with
  | EmptyString => EmptyString
  | String c r => String (lower_ascii c) (lower r)
  end.

Definition isspace (c : ascii) : bool :=
  let n := nat_of_ascii c in
  orb (andb (Nat.leb 9 n) (Nat.leb n 13))
      (orb (andb (Nat.leb 28 n) (Nat.leb n 31)) (Nat.eqb n 32)).

Fixpoint lstrip (s : string) : string :=
  match s with
  | EmptyString => EmptyString
  | String c r => if isspace c then lstrip r else s
  end.

Fixpoint rstrip (s : string) : string :=
  match s with
  | EmptyString => EmptyString
  | String c r =>
    match rstrip r with
    | EmptyString => if isspace c then EmptyString else String c EmptyString
    | r' => String c r'
    end
  end.

Definition strip (s : string) : string := rstrip (lstrip s).

(** A value of [mappings]: one display name or a list of synonyms. *)
Inductive mapping_value : Type :=
| Single (name : string)
| Synonyms (names : list string).

(** What [key_from_mapping] returns when it finds the label: a key of
    [mappings], or the value kept under a key. *)
Inductive resolved : Type :=
| Key (k : string)
| Value (v : mapping_value).

(** [{key.lower(): key for key in mappings}] *)
Definition lower_case_mappings_of (mappings : dict_of mapping_value)
  : dict_of string :=
  fold_left (fun acc key => dict_set acc (lower key) key)
            (dict_keys mappings) [].

(** The loop that fills [inverse_mappings]. *)
Definition inverse_mappings_of (mappings : dict_of mapping_value)
  : dict_of string :=
  fold_left
    (fun inverse_mappings (kv : string * mapping_value) =>
       let (key, value) := kv in
       match value with
       | Synonyms names =>
         fold_left
           (fun inverse_mappings synonym =>
              dict_set inverse_mappings (lower synonym) key)
           names inverse_mappings
       | Single name => dict_set inverse_mappings (lower name) key
       end)
    mappings [].

(** [key_from_mapping]; [Returns None] is Python's [return None]. *)
Definition key_from_mapping (input_str : string)
    (mappings : dict_of mapping_value) (invert : bool)
  : outcome (option resolved) :=
  let input_str := lower (strip input_str) in
  let lower_case_mappings := lower_case_mappings_of mappings in
  let inverse_mappings := inverse_mappings_of mappings in
  match dict_get lower_case_mappings input_str with
  | Some key =>
    if invert then
      match dict_get mappings key with
      | Some v => Returns (Some (Value v))
      | None => Raises KeyError
      end
    else Returns (Some (Key key))
  | None =>
    match dict_get inverse_mappings input_str with
    | Some key => Returns (Some (Key key))
    | None => Returns None
    end
  end.

(** *** The resolver, as the specification words it *)

(** The display names recorded for a value. *)
Definition names_of (v : mapping_value) : list string :=
  match v with
  | Single name => [name]
  | Synonyms names => names
  end.

(** The label equals the canonical key, case-insensitively. *)
Definition is_canonical (x : string) (key : string) : bool :=
  String.eqb (lower key) x.

(** The label equals one of the display names, case-insensitively. *)
Definition is_synonym (x : string) (v : mapping_value) : bool :=
  existsb (fun name => String.eqb (lower name) x) (names_of v).

(** The last item that satisfies the test. *)
Definition find_last {A} (f : A -> bool) (l : list A) : option A :=
  find f (rev l).

(** Canonical keys first, then display names, else nothing; among
    several entries that match, the last one of the mapping. *)
Definition resolve_label (input_str : string)
    (mappings : dict_of mapping_value) (invert : bool)
  : option resolved :=
  let x := lower (strip input_str) in
  match find_last (fun kv => is_canonical x (fst kv)) mappings with
  | Some (key, v) => Some (if invert then Value v else Key key)
  | None =>
    match find_last (fun kv => is_synonym x (snd kv)) mappings with
    | Some (key, _) => Some (Key key)
    | None => None
    end
  end.

(** ** A decoder for the integer fragment of JSON

    The theorems on the normalizer hold for every decoder that
    [shrinking] accepts.  The decoder below is one: it reads JSON text
    as [json.loads] does, for documents whose numbers are integers and
    whose strings use the one-character escapes.  It is what the
    examples run on. *)

Module Json.

Local Open Scope char_scope.

(** The whitespace of JSON. *)
Definition is_ws (c : ascii) : bool :=
  orb (Ascii.eqb c " ")
      (orb (Ascii.eqb c "009") (orb (Ascii.eqb c "010") (Ascii.eqb c "013"))).

Fixpoint skip_ws (s : list ascii) : list ascii :=
  match s with
  | c :: r => if is_ws c then skip_ws r else s
  | [] => []
  end.

Definition is_digit (c : ascii) : bool :=
  andb (Nat.leb 48 (nat_of_ascii c)) (Nat.leb (nat_of_ascii c) 57).

Definition digit_value (c : ascii) : Z := Z.of_nat (nat_of_ascii c - 48).

(** The rest of the input after the given prefix. *)
Fixpoint strip_prefix (p s : list ascii) : option (list ascii) :=
  match p, s with
  | [], _ => Some s
  | a :: p', b :: s' => if Ascii.eqb a b then strip_prefix p' s' else None
  | _ :: _, [] => None
  end.

(** The character an escape stands for. *)
Definition unescape (c : ascii) : option ascii :=
  if Ascii.eqb c "034" then Some "034"
  else if Ascii.eqb c "\" then Some "\"
  else if Ascii.eqb c "/" then Some "/"
  else if Ascii.eqb c "b" then Some "008"
  else if Ascii.eqb c "f" then Some "012"
  else if Ascii.eqb c "n" then Some "010"
  else if Ascii.eqb c "r" then Some "013"
  else if Ascii.eqb c "t" then Some "009"
  else None.

(** The characters of a string literal, after its opening quote. *)
Fixpoint parse_chars (s : list ascii) : option (list ascii * list ascii) :=
  match s with
  | [] => None
  | c :: r =>
    if Ascii.eqb c "034" then Some ([], r)
    else if Ascii.eqb c "\" then
      match r with
      | e :: r' =>
        match unescape e, parse_chars r' with
        | Some x, Some (cs, rest) => Some (x :: cs, rest)
        | _, _ => None
        end
      | [] => None
      end
    else if Nat.ltb (nat_of_ascii c) 32 then None
    else
      match parse_chars r with
      | Some (cs, rest) => Some (c :: cs, rest)
      | None => None
      end
  end.

(** The digits at the head of the input, as a number. *)
Fixpoint parse_digits (acc : Z) (s : list ascii) : Z * list ascii :=
  match s with
  | c :: r =>
    if is_digit c then parse_digits (10 * acc + digit_value c) r else (acc, s)
  | [] => (acc, [])
  end.

(** An unsigned integer: [0], or digits that do not start with [0];
    a fraction or an exponent after it is outside the fragment. *)
Definition parse_nat (s : list ascii) : option (Z * list ascii) :=
  match s with
  | c :: r =>
    if is_digit c then
      let (n, rest) := if Ascii.eqb c "0" then (0%Z, r)
                       else parse_digits 0 s in
      match rest with
      | d :: _ =>
        if orb (Ascii.eqb d ".") (orb (Ascii.eqb d "e") (Ascii.eqb d "E"))
        then None else Some (n, rest)
      | [] => Some (n, rest)
      end
    else None
  | [] => None
  end.

Definition parse_int (s : list ascii) : option (Z * list ascii) :=
  match s with
  | c :: r =>
    if Ascii.eqb c "-" then
      match parse_nat r with
      | Some (n, rest) => Some ((- n)%Z, rest)
      | None => None
      end
    else parse_nat s
  | [] => None
  end.

(** The elements of an array after the first one is due, up to the
    closing bracket; [p] reads one value. *)
Fixpoint parse_elems (p : list ascii -> option (value * list ascii))
    (k : nat) (s : list ascii) : option (list value * list ascii) :=
  match k with
  | O => None
  | S k' =>
    match p s with
    | None => None
    | Some (v, r) =>
      match skip_ws r with
      | c :: r' =>
        if Ascii.eqb c "]" then Some ([v], r')
        else if Ascii.eqb c "," then
          match parse_elems p k' (skip_ws r') with
          | Some (vs, rest) => Some (v :: vs, rest)
          | None => None
          end
        else None
      | [] => None
      end
    end
  end.

(** The pairs of an object after the first one is due, up to the
    closing brace; a key met again takes the later value. *)
Fixpoint parse_pairs (p : list ascii -> option (value * list ascii))
    (k : nat) (acc : dict) (s : list ascii) : option (dict * list ascii) :=
  match k with
  | O => None
  | S k' =>
    match s with
    | q :: r0 =>
      if Ascii.eqb q "034" then
        match parse_chars r0 with
        | None => None
        | Some (key, r1) =>
          match skip_ws r1 with
          | c :: r2 =>
            if Ascii.eqb c ":" then
              match p (skip_ws r2) with
              | None => None
              | Some (v, r3) =>
                let acc := dict_set acc (string_of_list_ascii key) v in
                match skip_ws r3 with
                | d :: r4 =>
                  if Ascii.eqb d "}" then Some (acc, r4)
                  else if Ascii.eqb d "," then
                    parse_pairs p k' acc (skip_ws r4)
                  else None
                | [] => None
                end
              end
            else None
          | [] => None
          end
        end
      else None
    | [] => None
    end
  end.

(** One value at the head of the input. *)
Fixpoint parse_value (fuel : nat) (s : list ascii)
  : option (value * list ascii) :=
  match fuel with
  | O => None
  | S n =>
    match s with
    | [] => None
    | c :: r =>
      if Ascii.eqb c "n" then
        option_map (fun rest => (VNone, rest))
                   (strip_prefix ["u"; "l"; "l"] r)
      else if Ascii.eqb c "t" then
        option_map (fun rest => (VBool true, rest))
                   (strip_prefix ["r"; "u"; "e"] r)
      else if Ascii.eqb c "f" then
        option_map (fun rest => (VBool false, rest))
                   (strip_prefix ["a"; "l"; "s"; "e"] r)
      else if Ascii.eqb c "034" then
        match parse_chars r with
        | Some (cs, rest) => Some (VStr (string_of_list_ascii cs), rest)
        | None => None
        end
      else if Ascii.eqb c "[" then
        match skip_ws r with
        | [] => None
        | d :: r' =>
          if Ascii.eqb d "]" then Some (VList [], r')
          else
            match parse_elems (parse_value n) (List.length r) (d :: r') with
            | Some (vs, rest) => Some (VList vs, rest)
            | None => None
            end
        end
      else if Ascii.eqb c "{" then
        match skip_ws r with
        | [] => None
        | d :: r' =>
          if Ascii.eqb d "}" then Some (VDict [], r')
          else
            match parse_pairs (parse_value n) (List.length r) [] (d :: r') with
            | Some (kvs, rest) => Some (VDict kvs, rest)
            | None => None
            end
        end
      else
        match parse_int s with
        | Some (z, rest) => Some (VInt z, rest)
        | None => None
        end
    end
  end.

(** [json.loads]: one value, with whitespace around it and nothing
    else. *)
Definition loads (s : string) : option value :=
  let input := list_ascii_of_string s in
  match parse_value (S (List.length input)) (skip_ws input) with
  | Some (v, rest) =>
    match skip_ws rest with
    | [] => Some v
    | _ :: _ => None
    end
  | None => None
  end.

(** JSON text written with apostrophes in place of the double quotes. *)
Fixpoint text (s : string) : string :=
  match s with
  | EmptyString => EmptyString
  | String c r => String (if Ascii.eqb c "'" then "034" else c) (text r)
  end.

End Json.

(** ** Truth value, membership and indexing of a value *)

(** [if v:], the truth value of a value. *)
Definition truthy (v : value) : bool :=
  match v with
  | VNone => false
  | VBool b => b
  | VInt z => negb (Z.eqb z 0)
  | VStr s => negb (String.eqb s "")
  | VList l => match l with [] => false | _ :: _ => true end
  | VDict d => match d with [] => false | _ :: _ => true end
  end.

(** [needle in hay] on two strs: [needle] is a substring of [hay]. *)
Fixpoint contains (needle hay : string) : bool :=
  if String.prefix needle hay then true
  else
    match hay with
    | EmptyString => false
    | String _ rest => contains needle rest
    end.

(** [key in v] for a str [key]: a key of a dict, a substring of a str,
    an element of a list; the other values are not iterable. *)
Definition value_in (key : string) (v : value) : outcome bool :=
  match v with
  | VDict d =>
    Returns (match dict_get d key with Some _ => true | None => false end)
  | VStr s => Returns (contains key s)
  | VList l =>
    Returns (existsb (fun x => match x with
                               | VStr s => String.eqb s key
                               | _ => false
                               end) l)
  | _ => Raises TypeError
  end.

(** [v[key]] for a str [key]: only a dict can be indexed by a str. *)
Definition getitem (v : value) (key : string) : outcome value :=
  match v with
  | VDict d =>
    match dict_get d key with
    | Some x => Returns x
    | None => Raises KeyError
    end
  | _ => Raises TypeError
  end.

(** ** [clean_initial_content] *)

Section CleanInitialContent.

(** [url_encode_decode.is_valid_url], from [web_utils], which is not
    among the sources. *)
Variable is_valid_url : string -> bool.

(** The body of the inner loop, for one item of one entry. *)
Definition clean_item (kv : string * value) (cleaned_content : list value)
  : outcome (list value) :=
  let (key, value) := kv in
  if is_valid_url key then
    has <- value_in "response" value ;;
    if has : bool then
      x <- getitem value "response" ;;
      Returns (cleaned_content ++ [x])
    else Returns cleaned_content
  else Returns (cleaned_content ++ [VDict [(key, value)]]).

Definition clean_initial_content (content : list dict)
  : outcome (list value) :=
  for_each content
    (fun entry cleaned_content => for_each entry clean_item cleaned_content)
    [].

(** What one item contributes when nothing is raised. *)
Definition cleaned_of (kv : string * value) : list value :=
  if is_valid_url (fst kv) then
    match snd kv with
    | VDict d =>
      match dict_get d "response" with
      | Some x => [x]
      | None => []
      end
    | _ => []
    end
  else [VDict [kv]].

End CleanInitialContent.

(** ** [APIClient._make_request] of the crypto API *)

Section CryptoRequest.

Variable conn : connection.

(** The values [http_client.make_request] gives the arguments the call
    leaves out; the method is not among the sources. *)
Variable default_concurrent default_return_url default_delay_enabled : bool.

Definition APIClient_make_request (c : client conn) (url : string)
    (headers_to_update : option (dict_of string))
  : client conn * outcome value :=
  let c := update_base_url conn c url in
  let (c, original_headers) :=
    match headers_to_update with
    | Some (hv :: hs) => capture_and_override conn (hv :: hs) c
    | Some [] | None => (c, [])
    end in
  let (c, fetched) :=
    make_request conn c [] default_concurrent default_return_url
      default_delay_enabled in
  match fetched with
  | Returns response =>
    let c := restore_headers conn original_headers c in
    (c, content <- getitem response "response" ;;
        Returns (if truthy content then content else VNone))
  | Raises e => (c, Raises e)
  | OutOfFuel => (c, OutOfFuel)
  end.

End CryptoRequest.

(** ** [find_os_in_user_agent] *)

Definition os_dict : dict_of string :=
  [("Windows", "Windows"); ("Macintosh", "macOS"); ("Linux", "Linux");
   ("CrOS", "Chrome OS")].

(** [for key in os_dict: if key in user_agent: return os_dict[key]],
    and [None] after the loop. *)
Fixpoint find_os_loop (keys : list string) (user_agent : string)
  : option string :=
  match keys with
  | [] => None
  | key :: rest =>
    if contains key user_agent then dict_get os_dict key
    else find_os_loop rest user_agent
  end.

Definition find_os_in_user_agent (user_agent : string) : option string :=
  find_os_loop (dict_keys os_dict) user_agent.

(** [p] occurs in [s]. *)
Definition occurs_in (p s : string) : Prop :=
  exists pre post, s = (pre ++ p ++ post)%string.

(** ** [UserAgentRandomizer.get_random_user_agent] *)

(** [recent_selections.append(choice)] on a [deque(maxlen=5)]. *)
Definition deque_append (maxlen : nat) (d : list string) (x : string)
  : list string :=
  if Nat.ltb (List.length d) maxlen then d ++ [x]
  else tl d ++ [x].

(** [recent_selections.count(choice)] *)
Definition count (d : list string) (x : string) : nat :=
  List.length (filter (String.eqb x) d).

(** The agents of every platform and browser, in the order of the three
    nested loops. *)
Definition all_user_agents_of
    (user_agents : dict_of (dict_of (dict_of string))) : list string :=
  flat_map
    (fun category => flat_map (fun subcategory => dict_values subcategory)
                              (dict_values category))
    (dict_values user_agents).

(** [random.choice(xs)], with the number the generator draws. *)
Definition random_choice (xs : list string) (draw : nat) : outcome string :=
  match xs with
  | [] => Raises IndexError
  | x :: _ => Returns (nth (draw mod List.length xs) xs x)
  end.

(** The [while] loop: draw again while the choice is three times or
    more among the recent selections.  [draws] gives the numbers of the
    generator, call after call. *)
Fixpoint redraw (fuel : nat) (all_user_agents recent : list string)
    (draws : nat -> nat) (n : nat) (choice : string) : outcome string :=
  match fuel with
  | O => OutOfFuel
  | S fuel' =>
    if Nat.leb 3 (count recent choice) then
      choice' <- random_choice all_user_agents (draws n) ;;
      redraw fuel' all_user_agents recent draws (S n) choice'
    else Returns choice
  end.

(** [get_random_user_agent], once [check_and_reload_user_agents] has
    left [user_agents] in the class: the choice and the recent
    selections after the call. *)
Definition get_random_user_agent (fuel : nat)
    (user_agents : dict_of (dict_of (dict_of string)))
    (recent_selections : list string) (draws : nat -> nat)
  : outcome (string * list string) :=
  let all_user_agents := all_user_agents_of user_agents in
  choice <- random_choice all_user_agents (draws 0) ;;
  choice <- redraw fuel all_user_agents recent_selections draws 1 choice ;;
  Returns (choice, deque_append 5 recent_selections choice).

(** ** Labels of the mapping resolver *)

(** A str of whitespace only: [s.strip() == ""]. *)
Fixpoint blank (s : string) : bool :=
  match s with
  | EmptyString => true
  | String c r => andb (isspace c) (blank r)
  end.


(** ** Inputs of the further examples *)

(** A client whose fetch raises. *)
Definition client_down : stub_client :=
  {| stub_headers := [("Accept", Some "text/html")];
     stub_base_url := "";
     stub_reply := Raises KeyError |}.

(** A client that replies with the given value. *)
Definition client_replying (v : value) : stub_client :=
  {| stub_headers := [("Accept", Some "text/html")];
     stub_base_url := "";
     stub_reply := Returns v |}.

(** A test for URLs that is enough for the examples. *)
Definition starts_with_http (key : string) : bool := String.prefix "http" key.

(** A configuration with two agents, and one with a single agent. *)
Definition two_agents : dict_of (dict_of (dict_of string)) :=
  [("desktop", [("chrome", [("windows", "agent-a")]);
                ("firefox", [("linux", "agent-b")])])].

Definition one_agent : dict_of (dict_of (dict_of string)) :=
  [("desktop", [("chrome", [("windows", "agent-a")])])].

(** ** Deep-parsing, as the specification words it

    Every string met, as a value of a mapping, an element of a sequence
    or the value itself, is replaced by what it decodes to, decoded in
    turn; a string that does not decode and a scalar pass through
    unchanged; a mapping keeps its keys and a sequence its length. *)

Section DeepParsed.

Variable loads : string -> option value.

Inductive deep_parsed : value -> value -> Prop :=
| deep_parsed_none : deep_parsed VNone VNone
| deep_parsed_bool b : deep_parsed (VBool b) (VBool b)
| deep_parsed_int z : deep_parsed (VInt z) (VInt z)
| deep_parsed_leaf s :
    loads s = None -> deep_parsed (VStr s) (VStr s)
| deep_parsed_decoded s v r :
    loads s = Some v -> deep_parsed v r -> deep_parsed (VStr s) r
| deep_parsed_list l l' :
    Forall2 deep_parsed l l' -> deep_parsed (VList l) (VList l')
| deep_parsed_dict d d' :
    dict_keys d' = dict_keys d ->
    Forall2 deep_parsed (dict_values d) (dict_values d') ->
    deep_parsed (VDict d) (VDict d').

End DeepParsed.
(** * Properties *)

(** ** The weight of a value *)

Lemma weight_VList l : weight (VList l) = S (weights l).
Proof. reflexivity. Qed.

Lemma weight_VDict d : weight (VDict d) = S (weights (dict_values d)).
Proof.
  change (weight (VDict d)) with (S ((fix sum (d : dict) : nat :=
     match d with [] => 0 | (_, x) :: r => weight x + sum r end) d)).
  f_equal. induction d as [|[k x] r IH]; [reflexivity|].
  cbn [dict_values map snd weights fold_right] in *. now rewrite IH.
Qed.

Lemma weight_pos v : 1 <= weight v.
Proof. destruct v; simpl; lia. Qed.

Lemma weights_In x l : In x l -> weight x <= weights l.
Proof.
  induction l as [|y r IH]; simpl; [tauto|].
  intros [->|H]; [lia|]. specialize (IH H). lia.
Qed.

Lemma dict_get_In {A} (d : dict_of A) key v :
  dict_get d key = Some v -> In v (dict_values d).
Proof.
  induction d as [|[k x] r IH]; simpl; [discriminate|].
  destruct (String.eqb k key); [intros [= ->]; auto | auto].
Qed.

(** ** Loops and comprehensions *)

Lemma for_each_no_raise {A S} (xs : list A) (body : A -> S -> outcome S) :
  (forall x s e, body x s <> Raises e) ->
  forall s e, for_each xs body s <> Raises e.
Proof.
  intros Hbody. induction xs as [|x r IH]; intros s e; simpl.
  - discriminate.
  - destruct (body x s) as [s'| e' |] eqn:E; simpl.
    + apply IH.
    + destruct (Hbody _ _ _ E).
    + discriminate.
Qed.

Lemma comprehension_no_raise {A B} (f : A -> outcome B) (xs : list A) :
  (forall x e, f x <> Raises e) ->
  forall e, comprehension f xs <> Raises e.
Proof.
  intros Hf. induction xs as [|x r IH]; intros e; simpl.
  - discriminate.
  - destruct (f x) as [y| e' |] eqn:E; simpl.
    + destruct (comprehension f r) as [ys| e' |] eqn:E'; simpl;
        try discriminate. destruct (IH e' eq_refl).
    + destruct (Hf _ _ E).
    + discriminate.
Qed.

Lemma comprehension_Forall2 {A B} (f : A -> outcome B) xs ys :
  comprehension f xs = Returns ys <->
  Forall2 (fun x y => f x = Returns y) xs ys.
Proof.
  revert ys. induction xs as [|x r IH]; intros ys; simpl.
  - split.
    + intros [= <-]. constructor.
    + intros H. inversion H. reflexivity.
  - split.
    + destruct (f x) as [y| |] eqn:E; simpl; try discriminate.
      destruct (comprehension f r) as [zs| |] eqn:E'; simpl; try discriminate.
      intros [= <-]. constructor; [assumption|]. now apply IH.
    + intros H. inversion H as [|x' y r' zs Hx Hr]; subst.
      rewrite Hx. simpl. apply IH in Hr. rewrite Hr. reflexivity.
Qed.

Lemma Forall2_length_eq {A B} (R : A -> B -> Prop) xs ys :
  Forall2 R xs ys -> List.length xs = List.length ys.
Proof. induction 1; simpl; congruence. Qed.

(** ** The normalizer *)

Section NormalizerFacts.

Variable loads : string -> option value.

(** *** The equations of [normalize] *)

Lemma normalize_default n v tk ks :
  normalize loads n v tk ks None = normalize loads n v tk ks (Some []).
Proof. destruct n; reflexivity. Qed.

Lemma normalize_dict n d tk ks rs :
  normalize loads (S n) (VDict d) tk ks (Some rs) =
  for_each (dict_values d)
    (fun value results => normalize loads n value tk ks (Some results))
    (rs ++ own_match tk ks d).
Proof.
  simpl. unfold own_match, recorded.
  destruct (dict_get d tk); [destruct ks|]; rewrite ?app_nil_r; reflexivity.
Qed.

Lemma normalize_list n l tk ks rs :
  normalize loads (S n) (VList l) tk ks (Some rs) =
  for_each l (fun item results => normalize loads n item tk ks (Some results)) rs.
Proof. reflexivity. Qed.

Lemma normalize_decoded n [s v] tk ks rs :
  loads s = Some v ->
  normalize loads (S n) (VStr s) tk ks (Some rs) =
  try_except (normalize loads n v tk ks (Some rs)) JSONDecodeError (Returns rs).
Proof. intros E. simpl. unfold json_loads. rewrite E. reflexivity. Qed.

Lemma normalize_leaf n [s] tk ks rs :
  loads s = None ->
  normalize loads (S n) (VStr s) tk ks (Some rs) = Returns rs.
Proof. intros E. simpl. unfold json_loads. rewrite E. reflexivity. Qed.

(** [normalize] raises nothing. *)
Lemma normalize_no_raise n : forall v tk ks rs e,
  normalize loads n v tk ks rs <> Raises e.
Proof.
  induction n as [|n IH]; intros v tk ks rs e; [discriminate|].
  assert (D : forall rs, normalize loads (S n) v tk ks (Some rs) <> Raises e).
  { clear rs. intros rs. destruct v as [| b | z | s | l | d]; try discriminate.
    - destruct (loads s) as [v|] eqn:E.
      + rewrite (normalize_decoded n tk ks rs E).
        destruct (normalize loads n v tk ks (Some rs)) as [r| e' |] eqn:E';
          simpl; try discriminate. destruct (IH _ _ _ _ _ E').
      + rewrite (normalize_leaf n tk ks rs E). discriminate.
    - rewrite normalize_list. apply for_each_no_raise. intros; apply IH.
    - rewrite normalize_dict. apply for_each_no_raise. intros; apply IH. }
  destruct rs as [rs|]; [apply D | rewrite normalize_default; apply D].
Qed.

(** The walk is a function of the payload. *)
Lemma discovers_functional tk ks :
  (forall v ms, discovers loads tk ks v ms ->
     forall ms', discovers loads tk ks v ms' -> ms = ms') /\
  (forall vs ms, discovers_each loads tk ks vs ms ->
     forall ms', discovers_each loads tk ks vs ms' -> ms = ms').
Proof.
  apply discovers_mutind.
  - intros d ms _ IH ms' H. inversion H; subst. f_equal. now apply IH.
  - intros l ms _ IH ms' H. inversion H; subst. now apply IH.
  - intros s v ms E _ IH ms' H. inversion H; subst; [|congruence].
    apply IH. congruence.
  - intros s E ms' H. inversion H; subst; [congruence|reflexivity].
  - intros ms' H. now inversion H.
  - intros b ms' H. now inversion H.
  - intros z ms' H. now inversion H.
  - intros ms' H. now inversion H.
  - intros v vs m ms _ IHv _ IHvs ms' H. inversion H; subst.
    f_equal; [now apply IHv | now apply IHvs].
Qed.

(** What [normalize] returns is the accumulator followed by what the
    walk discovers, whenever it returns. *)
Lemma normalize_each_sound tk ks n :
  (forall v rs res,
     normalize loads n v tk ks (Some rs) = Returns res ->
     exists ms, discovers loads tk ks v ms /\ res = rs ++ ms) ->
  forall l rs res,
    for_each l
      (fun item results => normalize loads n item tk ks (Some results)) rs
    = Returns res ->
    exists ms, discovers_each loads tk ks l ms /\ res = rs ++ ms.
Proof.
  intros IH. induction l as [|x r IHl]; intros rs res; simpl.
  - intros [= <-]. exists []. split; [constructor | now rewrite app_nil_r].
  - destruct (normalize loads n x tk ks (Some rs)) as [rs1| |] eqn:E;
      simpl; try discriminate.
    intros H. apply IH in E. destruct E as (m & Dm & ->).
    apply IHl in H. destruct H as (ms & Dms & ->).
    exists (m ++ ms). split; [now constructor | now rewrite app_assoc].
Qed.

Lemma normalize_sound tk ks n : forall v rs res,
  normalize loads n v tk ks (Some rs) = Returns res ->
  exists ms, discovers loads tk ks v ms /\ res = rs ++ ms.
Proof.
  induction n as [|n IH]; intros v rs res; [discriminate|].
  destruct v as [| b | z | s | l | d].
  - intros [= <-]. exists []. split; [constructor | now rewrite app_nil_r].
  - intros [= <-]. exists []. split; [constructor | now rewrite app_nil_r].
  - intros [= <-]. exists []. split; [constructor | now rewrite app_nil_r].
  - destruct (loads s) as [v|] eqn:E.
    + rewrite (normalize_decoded n tk ks rs E).
      destruct (normalize loads n v tk ks (Some rs)) as [r| e |] eqn:N;
        simpl; try discriminate.
      * intros [= <-]. apply IH in N. destruct N as (ms & D & ->).
        exists ms. split; [econstructor; eassumption | reflexivity].
      * destruct (normalize_no_raise _ _ _ _ _ _ N).
    + rewrite (normalize_leaf n tk ks rs E). intros [= <-].
      exists []. split; [now constructor | now rewrite app_nil_r].
  - rewrite normalize_list. intros H.
    apply (normalize_each_sound tk ks n IH) in H.
    destruct H as (ms & D & ->). exists ms. split; [now constructor|].
    reflexivity.
  - rewrite normalize_dict. intros H.
    apply (normalize_each_sound tk ks n IH) in H.
    destruct H as (ms & D & ->). exists (own_match tk ks d ++ ms).
    split; [now constructor | now rewrite app_assoc].
Qed.

(** A run of [normalize] that returns shows what the walk discovers. *)
Lemma discovers_by_run tk ks n v ms :
  normalize loads n v tk ks None = Returns ms ->
  discovers loads tk ks v ms.
Proof.
  rewrite normalize_default. intros H. apply normalize_sound in H.
  destruct H as (ms' & D & ->). exact D.
Qed.

(** *** The equations of [deep_parse_json] *)

Lemma deep_parse_decoded n [s v] :
  loads s = Some v ->
  deep_parse_json loads (S n) (VStr s) =
  try_except (deep_parse_json loads n v) JSONDecodeError (Returns (VStr s)).
Proof. intros E. simpl. unfold json_loads. rewrite E. reflexivity. Qed.

Lemma deep_parse_leaf n [s] :
  loads s = None ->
  deep_parse_json loads (S n) (VStr s) = Returns (VStr s).
Proof. intros E. simpl. unfold json_loads. rewrite E. reflexivity. Qed.

Lemma deep_parse_list n l :
  deep_parse_json loads (S n) (VList l) =
  (l' <- comprehension (deep_parse_json loads n) l ;; Returns (VList l')).
Proof. reflexivity. Qed.

Lemma deep_parse_dict n d :
  deep_parse_json loads (S n) (VDict d) =
  (d' <- comprehension
           (fun kv : string * value =>
              v' <- deep_parse_json loads n (snd kv) ;; Returns (fst kv, v'))
           d ;;
   Returns (VDict d')).
Proof. reflexivity. Qed.

(** [deep_parse_json] raises nothing. *)
Lemma deep_parse_no_raise n : forall v e,
  deep_parse_json loads n v <> Raises e.
Proof.
  induction n as [|n IH]; intros v e; [discriminate|].
  destruct v as [| b | z | s | l | d]; try discriminate.
  - destruct (loads s) as [v|] eqn:E.
    + rewrite (deep_parse_decoded n E).
      destruct (deep_parse_json loads n v) as [r| e' |] eqn:E';
        simpl; try discriminate. destruct (IH _ _ E').
    + rewrite (deep_parse_leaf n E). discriminate.
  - rewrite deep_parse_list.
    destruct (comprehension (deep_parse_json loads n) l) as [r| e' |] eqn:E;
      simpl; try discriminate.
    destruct (comprehension_no_raise (deep_parse_json loads n) l IH e' E).
  - rewrite deep_parse_dict.
    match goal with |- bind ?c _ <> _ => destruct c as [r| e' |] eqn:E end;
      simpl; try discriminate.
    exfalso. revert E. refine (comprehension_no_raise _ d _ e').
    intros [k x] e''. simpl.
    destruct (deep_parse_json loads n x) as [r| e3 |] eqn:E'; simpl;
      try discriminate. destruct (IH _ _ E').
Qed.

(** More fuel does not change what [deep_parse_json] returns. *)
Lemma deep_parse_json_fuel n : forall m v r,
  deep_parse_json loads n v = Returns r -> n <= m ->
  deep_parse_json loads m v = Returns r.
Proof.
  induction n as [|n IH]; intros m v r; [discriminate|].
  intros H L. destruct m as [|m]; [lia|]. assert (L' : n <= m) by lia.
  destruct v as [| b | z | s | l | d]; try exact H.
  - destruct (loads s) as [v|] eqn:E.
    + rewrite (deep_parse_decoded n E) in H. rewrite (deep_parse_decoded m E).
      destruct (deep_parse_json loads n v) as [y| e |] eqn:D;
        simpl in H; try discriminate.
      * rewrite (IH m v y D L'). exact H.
      * destruct (deep_parse_no_raise _ _ _ D).
    + rewrite (deep_parse_leaf n E) in H. now rewrite (deep_parse_leaf m E).
  - rewrite deep_parse_list in *.
    destruct (comprehension (deep_parse_json loads n) l) as [ys| |] eqn:C;
      simpl in H; try discriminate.
    apply comprehension_Forall2 in C.
    assert (C' : comprehension (deep_parse_json loads m) l = Returns ys).
    { apply comprehension_Forall2.
      eapply Forall2_impl; [|exact C]. intros x y Hx. now apply IH. }
    rewrite C'. exact H.
  - rewrite deep_parse_dict in *.
    match type of H with bind ?c _ = _ =>
      destruct c as [ys| |] eqn:C end; simpl in H; try discriminate.
    apply comprehension_Forall2 in C.
    match goal with |- bind ?c _ = _ => assert (C' : c = Returns ys) end.
    { apply comprehension_Forall2.
      eapply Forall2_impl; [|exact C]. intros [k x] y. simpl.
      destruct (deep_parse_json loads n x) as [x'| |] eqn:D; simpl;
        try discriminate.
      intros Hy. now rewrite (IH m x x' D L'). }
    rewrite C'. exact H.
Qed.

(** An irreducible value is a fixed point of [deep_parse_json]. *)
Lemma deep_parse_fixed n : forall r,
  irreducible loads r -> weight r <= n ->
  deep_parse_json loads n r = Returns r.
Proof.
  induction n as [|n IH]; intros r I W.
  - pose proof (weight_pos r). lia.
  - inversion I as [| b | z | s E | l F | d F]; subst; try reflexivity.
    + apply (deep_parse_leaf n E).
    + rewrite deep_parse_list. rewrite weight_VList in W.
      assert (C : comprehension (deep_parse_json loads n) l = Returns l).
      { assert (W' : weights l <= n) by lia. clear W I.
        induction F as [|x r Ix F IHF]; simpl in *; [reflexivity|].
        rewrite (IH x Ix) by lia. simpl. rewrite IHF by lia. reflexivity. }
      rewrite C. reflexivity.
    + rewrite deep_parse_dict. rewrite weight_VDict in W.
      match goal with |- bind ?c _ = _ => assert (C : c = Returns d) end.
      { assert (W' : weights (dict_values d) <= n) by lia. clear W I.
        induction d as [|[k x] r IHd]; simpl in *; [reflexivity|].
        inversion F as [|? ? Ix F']; subst.
        rewrite (IH x Ix) by lia. simpl. rewrite IHd by (assumption || lia).
        reflexivity. }
      rewrite C. reflexivity.
Qed.

(** What [deep_parse_json] returns is the deep-parsed form of its
    input. *)
Lemma deep_parse_json_sound n : forall v r,
  deep_parse_json loads n v = Returns r -> deep_parsed loads v r.
Proof.
  induction n as [|n IH]; intros v r; [discriminate|].
  destruct v as [| b | z | s | l | d].
  - intros [= <-]. constructor.
  - intros [= <-]. constructor.
  - intros [= <-]. constructor.
  - destruct (loads s) as [v|] eqn:E.
    + rewrite (deep_parse_decoded n E).
      destruct (deep_parse_json loads n v) as [y| e |] eqn:D; simpl;
        try discriminate.
      * intros [= <-]. apply (deep_parsed_decoded loads s v y E).
        now apply IH.
      * destruct (deep_parse_no_raise _ _ _ D).
    + rewrite (deep_parse_leaf n E). intros [= <-]. now constructor.
  - rewrite deep_parse_list.
    destruct (comprehension (deep_parse_json loads n) l) as [l'| |] eqn:C;
      simpl; try discriminate.
    intros [= <-]. constructor. apply comprehension_Forall2 in C.
    eapply Forall2_impl; [|exact C]. intros x y. apply IH.
  - rewrite deep_parse_dict.
    match goal with |- bind ?c _ = _ -> _ =>
      destruct c as [d'| |] eqn:C end; simpl; try discriminate.
    intros [= <-]. apply comprehension_Forall2 in C.
    assert (K : dict_keys d' = dict_keys d /\
                Forall2 (deep_parsed loads) (dict_values d) (dict_values d')).
    { induction C as [|[k x] [k' y] r r' H _ IHC]; simpl.
      - split; [reflexivity | constructor].
      - simpl in H.
        destruct (deep_parse_json loads n x) as [x'| |] eqn:D; simpl in H;
          try discriminate.
        injection H as <- <-. destruct IHC as [K F]. split.
        + now rewrite K.
        + constructor; [now apply IH | exact F]. }
    destruct K as [K F]. now constructor.
Qed.

Section Shrinking.

Hypothesis loads_shrinks : shrinking loads.

Lemma normalize_each_walk n tk ks :
  (forall v, weight v <= n ->
     exists ms, discovers loads tk ks v ms /\
       forall rs, normalize loads n v tk ks (Some rs) = Returns (rs ++ ms)) ->
  forall l, weights l <= n ->
    exists ms, discovers_each loads tk ks l ms /\
      forall rs,
        for_each l (fun item results => normalize loads n item tk ks (Some results))
          rs = Returns (rs ++ ms).
Proof.
  intros IH. induction l as [|x r IHl]; intros W; simpl in *.
  - exists []. split; [constructor|]. intros rs. now rewrite app_nil_r.
  - destruct (IH x) as (m & Dm & Em); [lia|].
    destruct IHl as (ms & Dms & Ems); [lia|].
    exists (m ++ ms). split; [now constructor|].
    intros rs. rewrite Em. simpl. rewrite Ems. now rewrite app_assoc.
Qed.

(** With the weight of the payload as fuel, [normalize] returns the
    accumulator followed by what the walk discovers loads. *)
Lemma normalize_walk tk ks n : forall v, weight v <= n ->
  exists ms, discovers loads tk ks v ms /\
    forall rs, normalize loads n v tk ks (Some rs) = Returns (rs ++ ms).
Proof.
  induction n as [|n IH]; intros v W.
  - pose proof (weight_pos v). lia.
  - destruct v as [| b | z | s | l | d].
    + exists []. split; [constructor|]. intros rs. simpl. now rewrite app_nil_r.
    + exists []. split; [constructor|]. intros rs. simpl. now rewrite app_nil_r.
    + exists []. split; [constructor|]. intros rs. simpl. now rewrite app_nil_r.
    + destruct (loads s) as [v|] eqn:E.
      * destruct (IH v) as (ms & D & N).
        { apply loads_shrinks in E. simpl in W. lia. }
        exists ms. split; [econstructor; eassumption|].
        intros rs. rewrite (normalize_decoded n tk ks rs E), N. reflexivity.
      * exists []. split; [now constructor|].
        intros rs. rewrite (normalize_leaf n tk ks rs E). now rewrite app_nil_r.
    + rewrite weight_VList in W.
      destruct (normalize_each_walk n tk ks IH l) as (ms & D & N); [lia|].
      exists ms. split; [now constructor|].
      intros rs. rewrite normalize_list. apply N.
    + rewrite weight_VDict in W.
      destruct (normalize_each_walk n tk ks IH (dict_values d))
        as (ms & D & N); [lia|].
      exists (own_match tk ks d ++ ms). split; [now constructor|].
      intros rs. rewrite normalize_dict, N. now rewrite app_assoc.
Qed.

Lemma normalize_discovers tk ks v ms n rs :
  discovers loads tk ks v ms -> weight v <= n ->
  normalize loads n v tk ks (Some rs) = Returns (rs ++ ms).
Proof.
  intros D W. destruct (normalize_walk tk ks n v W) as (ms' & D' & N).
  rewrite (proj1 (discovers_functional tk ks) _ _ D _ D'). apply N.
Qed.

(** With the weight of the input as fuel, [deep_parse_json] returns an
    irreducible value that is no heavier than the input. *)
Lemma deep_parse_total n : forall v, weight v <= n ->
  exists r, deep_parse_json loads n v = Returns r /\
            irreducible loads r /\ weight r <= weight v.
Proof.
  induction n as [|n IH]; intros v W.
  - pose proof (weight_pos v). lia.
  - destruct v as [| b | z | s | l | d].
    + exists VNone. repeat split; [constructor | lia].
    + exists (VBool b). repeat split; [constructor | lia].
    + exists (VInt z). repeat split; [constructor | lia].
    + destruct (loads s) as [v|] eqn:E.
      * pose proof (loads_shrinks _ _ E) as Hs. simpl in W.
        destruct (IH v) as (r & D & I & Wr); [lia|].
        exists r. rewrite (deep_parse_decoded n E), D. simpl.
        repeat split; [assumption | lia].
      * exists (VStr s). rewrite (deep_parse_leaf n E).
        repeat split; [now constructor | lia].
    + rewrite weight_VList in W.
      assert (C : exists rs,
                 comprehension (deep_parse_json loads n) l = Returns rs /\
                 Forall (irreducible loads) rs /\ weights rs <= weights l).
      { assert (W' : weights l <= n) by lia. clear W.
        induction l as [|x r IHl]; simpl in *.
        - exists []. repeat split; [constructor | simpl; lia].
        - destruct (IH x) as (y & D & I & Wy); [lia|].
          destruct IHl as (ys & C & F & Wys); [lia|].
          exists (y :: ys). rewrite D. simpl. rewrite C. simpl.
          repeat split; [now constructor | simpl; lia]. }
      destruct C as (rs & C & F & Wrs).
      exists (VList rs). rewrite deep_parse_list, C. cbn [bind].
      repeat split; [now constructor | rewrite !weight_VList; lia].
    + rewrite weight_VDict in W.
      assert (C : exists d',
                 comprehension
                   (fun kv : string * value =>
                      v' <- deep_parse_json loads n (snd kv) ;;
                      Returns (fst kv, v')) d = Returns d' /\
                 Forall (irreducible loads) (dict_values d') /\
                 weights (dict_values d') <= weights (dict_values d)).
      { assert (W' : weights (dict_values d) <= n) by lia. clear W.
        induction d as [|[k x] r IHd]; simpl in *.
        - exists []. repeat split; [constructor | simpl; lia].
        - destruct (IH x) as (y & D & I & Wy); [lia|].
          destruct IHd as (ys & C & F & Wys); [lia|].
          exists ((k, y) :: ys). rewrite D. simpl. rewrite C. simpl.
          repeat split; [now constructor | simpl; lia]. }
      destruct C as (d' & C & F & Wd).
      exists (VDict d'). rewrite deep_parse_dict, C. cbn [bind].
      repeat split; [now constructor | rewrite !weight_VDict; lia].
Qed.

(** Every match the walk discovers is no heavier than the payload. *)
Lemma discovers_weight tk ks :
  (forall v ms, discovers loads tk ks v ms ->
     Forall (fun m => weight m <= weight v) ms) /\
  (forall vs ms, discovers_each loads tk ks vs ms ->
     Forall (fun m => weight m <= weights vs) ms).
Proof.
  apply discovers_mutind.
  - intros d ms _ IH. rewrite weight_VDict. apply Forall_app. split.
    + unfold own_match. destruct (dict_get d tk) as [v|] eqn:E; [|constructor].
      constructor; [|constructor].
      apply dict_get_In, weights_In in E.
      unfold recorded. destruct ks; [rewrite weight_VDict; simpl|]; lia.
    + eapply Forall_impl; [|exact IH]. simpl. intros; lia.
  - intros l ms _ IH. rewrite weight_VList.
    eapply Forall_impl; [|exact IH]. simpl. intros; lia.
  - intros s v ms E _ IH. apply loads_shrinks in E.
    eapply Forall_impl; [|exact IH]. simpl. intros; lia.
  - intros; constructor.
  - constructor.
  - intros; constructor.
  - intros; constructor.
  - constructor.
  - intros v vs m ms _ IHv _ IHvs. apply Forall_app. split.
    + eapply Forall_impl; [|exact IHv]. simpl. intros; lia.
    + eapply Forall_impl; [|exact IHvs]. simpl. intros; lia.
Qed.

(** The matches do not depend on whether the structure is kept, up to
    the wrapping of each. *)
Lemma discovers_recorded tk ks :
  (forall v ms, discovers loads tk false v ms ->
     discovers loads tk ks v (map (recorded tk ks) ms)) /\
  (forall vs ms, discovers_each loads tk false vs ms ->
     discovers_each loads tk ks vs (map (recorded tk ks) ms)).
Proof.
  apply discovers_mutind; intros; try (simpl; now constructor).
  - rewrite map_app.
    replace (map (recorded tk ks) (own_match tk false d))
      with (own_match tk ks d)
      by (unfold own_match; destruct (dict_get d tk); reflexivity).
    now constructor.
  - simpl. econstructor; eassumption.
  - rewrite map_app. now constructor.
Qed.

(** What [normalize_response] does with the matches the walk finds. *)
Lemma normalize_response_shape [payload tk ks ms fuel] :
  discovers loads tk ks payload ms -> weight payload <= fuel ->
  normalize_response loads fuel payload tk false ks =
  if Nat.eqb (List.length ms) 1
  then (result <- index ms 0 ;; process_result loads fuel result false)
  else process_result loads fuel (VList ms) true.
Proof.
  intros D W. unfold normalize_response.
  rewrite normalize_default, (normalize_discovers tk ks payload ms fuel [] D W).
  simpl.
  destruct (Nat.eqb (List.length ms) 1); reflexivity.
Qed.

Lemma deep_parse_each ms fuel :
  Forall (fun m => weight m <= fuel) ms ->
  exists rs,
    comprehension (deep_parse_json loads fuel) ms = Returns rs /\
    Forall2 (fun m r => deep_parse_json loads fuel m = Returns r) ms rs.
Proof.
  induction 1 as [|m ms W _ IH].
  - exists []. split; [reflexivity | constructor].
  - destruct (deep_parse_total fuel m W) as (r & D & _).
    destruct IH as (rs & C & F).
    exists (r :: rs). simpl. rewrite D. simpl. rewrite C. simpl.
    split; [reflexivity | now constructor].
Qed.

(** One match that is not a list: the match, deep-parsed, as it is. *)
Lemma normalize_response_single payload tk ks m fuel :
  discovers loads tk ks payload [m] -> weight payload <= fuel ->
  (forall l, m <> VList l) ->
  normalize_response loads fuel payload tk false ks =
  deep_parse_json loads fuel m.
Proof.
  intros D W NL. rewrite (normalize_response_shape D W). simpl.
  destruct m; try reflexivity. destruct (NL items eq_refl).
Qed.

Lemma deep_parse_each_irreducible ms rs fuel :
  Forall (fun m => weight m <= fuel) ms ->
  Forall2 (fun m r => deep_parse_json loads fuel m = Returns r) ms rs ->
  Forall (irreducible loads) rs.
Proof.
  intros W F. induction F as [|m r ms rs H _ IH]; [constructor|].
  inversion W as [|? ? Wm W']; subst.
  destruct (deep_parse_total fuel m Wm) as (r' & D & I & _).
  rewrite D in H. injection H as <-.
  constructor; [exact I | now apply IH].
Qed.

(** C2: when the target key occurs [N > 1] times, [normalize_response]
    returns a list of exactly [N] values: the matches in the order of
    the depth-first walk (the match of a mapping before the matches in
    its values, the elements of a sequence in order, a decoded string
    walked as its value), each replaced by its deep-parsed form, in
    which no string decodes any further. *)
Theorem normalize_response_many payload tk ks N fuel :
  occurs loads tk payload N -> 1 < N -> weight payload <= fuel ->
  exists ms rs,
    discovers loads tk ks payload ms /\
    List.length ms = N /\
    normalize_response loads fuel payload tk false ks = Returns (VList rs) /\
    List.length rs = N /\
    Forall2 (deep_parsed loads) ms rs /\
    Forall (irreducible loads) rs /\
    Forall2 (fun m r => deep_parse_json loads fuel m = Returns r) ms rs.
Proof.
  intros (ms0 & D0 & L0) HN W.
  pose proof (proj1 (discovers_recorded tk ks) _ _ D0) as D.
  set (ms := map (recorded tk ks) ms0) in *.
  assert (L : List.length ms = N) by (unfold ms; now rewrite length_map).
  assert (Wms : Forall (fun m => weight m <= fuel) ms).
  { eapply Forall_impl; [|exact (proj1 (discovers_weight tk ks) _ _ D)].
    simpl. intros; lia. }
  destruct (deep_parse_each ms fuel Wms) as (rs & C & F).
  exists ms, rs. split; [exact D|]. split; [exact L|].
  rewrite (normalize_response_shape D W), L.
  destruct (Nat.eqb_spec N 1) as [->|_]; [lia|].
  unfold process_result. simpl. rewrite C. simpl.
  split; [reflexivity|].
  split; [rewrite <- (Forall2_length_eq _ _ _ F); exact L|].
  split; [|split; [exact (deep_parse_each_irreducible ms rs fuel Wms F)
                  | exact F]].
  eapply Forall2_impl; [|exact F]. intros m r. apply deep_parse_json_sound.
Qed.

(** C7: when the target key occurs nowhere in the payload,
    [normalize_response] returns the empty list. *)
Theorem normalize_response_no_match payload tk ks fuel :
  occurs loads tk payload 0 -> weight payload <= fuel ->
  normalize_response loads fuel payload tk false ks = Returns (VList []).
Proof.
  intros (ms0 & D0 & L0) W.
  destruct ms0; [|discriminate].
  pose proof (proj1 (discovers_recorded tk ks) _ _ D0) as D. simpl in D.
  rewrite (normalize_response_shape D W). reflexivity.
Qed.

(** C6: when the target key occurs exactly once and the value under it
    is an empty list, [process_result] takes element 0 of that list and
    the [IndexError] leaves [normalize_response]. *)
Theorem normalize_response_empty_list_raises payload tk fuel :
  discovers loads tk false payload [VList []] -> weight payload <= fuel ->
  occurs loads tk payload 1 /\
  normalize_response loads fuel payload tk false false = Raises IndexError.
Proof.
  intros D W. split; [exists [VList []]; now split|].
  rewrite (normalize_response_shape D W). reflexivity.
Qed.

(** C3: [deep_parse_json] returns on every input, and parsing its result
    again gives that result back. *)
Theorem deep_parse_json_idempotent x fuel :
  weight x <= fuel ->
  exists y, deep_parse_json loads fuel x = Returns y /\
            deep_parse_json loads fuel y = Returns y.
Proof.
  intros W. destruct (deep_parse_total fuel x W) as (y & D & I & Wy).
  exists y. split; [exact D|]. apply deep_parse_fixed; [exact I | lia].
Qed.

End Shrinking.

(** The only exception that leaves [normalize_response] is the
    [IndexError] of [process_result]. *)
Lemma normalize_response_raises fuel response tk on ks e :
  normalize_response loads fuel response tk on ks = Raises e ->
  e = IndexError.
Proof.
  unfold normalize_response. destruct on.
  - intros H. destruct (deep_parse_no_raise _ _ _ H).
  - destruct (normalize loads fuel response tk ks None) as [data| e' |] eqn:N;
      simpl; [| intros _; destruct (normalize_no_raise _ _ _ _ _ _ N)
              | discriminate].
    destruct (Nat.eqb_spec (List.length data) 1) as [L|L].
    + destruct data as [|x [|y data]]; try discriminate. simpl.
      destruct x as [| b | z | s | l | d]; simpl;
        try (intros H; destruct (deep_parse_no_raise _ _ _ H)).
      unfold try_except, index.
      destruct l as [|x l]; simpl; [intros [= <-]; reflexivity|].
      destruct (deep_parse_json loads fuel x) as [r| e' |] eqn:D;
        try discriminate. destruct (deep_parse_no_raise _ _ _ D).
    + simpl.
      destruct (comprehension (deep_parse_json loads fuel) data)
        as [rs| e' |] eqn:C; simpl; try discriminate.
      destruct (comprehension_no_raise _ data
                  (deep_parse_no_raise fuel) e' C).
Qed.

(** C1, at the payload [{"response": [1, 2]}]: the only match is the
    list [[1, 2]], and [normalize_response] returns its first element
    instead of the list. *)
Theorem normalize_response_single_list_first fuel :
  normalize_response loads (4 + fuel)
    (VDict [("response", VList [VInt 1; VInt 2])]) "response" false false
  = Returns (VInt 1).
Proof. reflexivity. Qed.

(** C10: a string that does not decode leaves the list of matches as it
    is, and no [JSONDecodeError] leaves [normalize_response]. *)
Theorem undecodable_string_is_a_silent_leaf :
  (forall fuel s tk ks rs,
     loads s = None ->
     discovers loads tk ks (VStr s) [] /\
     normalize loads (S fuel) (VStr s) tk ks (Some rs) = Returns rs) /\
  (forall fuel response tk onlyNormalize ks,
     normalize_response loads fuel response tk onlyNormalize ks
     <> Raises JSONDecodeError).
Proof.
  split.
  - intros fuel s tk ks rs E. split; [now constructor|].
    apply (normalize_leaf fuel tk ks rs E).
  - intros fuel response tk on ks H.
    apply normalize_response_raises in H. discriminate.
Qed.

End NormalizerFacts.

(** ** Dicts *)

Lemma dict_set_fresh {A} (d : dict_of A) k v :
  ~ In k (dict_keys d) -> dict_set d k v = d ++ [(k, v)].
Proof.
  induction d as [|[k' x] r IH]; simpl; intros H; [reflexivity|].
  destruct (String.eqb_spec k' k) as [->|_]; [tauto|].
  rewrite IH by tauto. reflexivity.
Qed.

Lemma dict_set_keys {A} (d : dict_of A) k v :
  In k (dict_keys d) -> dict_keys (dict_set d k v) = dict_keys d.
Proof.
  induction d as [|[k' x] r IH]; simpl; intros H; [tauto|].
  destruct (String.eqb_spec k' k) as [->|Hne]; simpl; [reflexivity|].
  f_equal. apply IH. destruct H; [contradiction | assumption].
Qed.

Lemma dict_set_NoDup {A} (d : dict_of A) k v :
  NoDup (dict_keys d) -> NoDup (dict_keys (dict_set d k v)).
Proof.
  intros H. destruct (in_dec string_dec k (dict_keys d)) as [I|I].
  - now rewrite dict_set_keys.
  - rewrite dict_set_fresh by assumption. unfold dict_keys in *.
    rewrite map_app. simpl.
    apply NoDup_app; [assumption | repeat constructor; tauto |].
    intros a Ha [<-|[]]. contradiction.
Qed.

(** ** The dispatcher *)

Section DispatcherFacts.

Variable loads : string -> option value.
Variable conn : connection.

(** The values the first loop records are the ones the headers had
    before the call: each is read before its header is written, and the
    headers written before it are other headers. *)
Lemma capture_and_override_from hs : forall c c0 orig0,
  NoDup (dict_keys orig0 ++ dict_keys hs) ->
  (forall h, In h (dict_keys hs) ->
     get_headers conn c0 h = get_headers conn c h) ->
  fold_left
    (fun (st : client conn * dict_of header_value) (hv : string * string) =>
       let (c, original_headers) := st in
       let (header, value) := hv in
       let original_headers :=
         dict_set original_headers header (get_headers conn c header) in
       (update_header conn c header (Some value), original_headers))
    hs (c0, orig0)
  = (overridden conn hs c0,
     orig0 ++ map (fun hv => (fst hv, get_headers conn c (fst hv))) hs).
Proof.
  induction hs as [|[h v] hs IH]; intros c c0 orig0 ND G; simpl.
  - now rewrite app_nil_r.
  - unfold dict_keys in ND. simpl in ND.
    assert (Hfresh : ~ In h (dict_keys orig0)).
    { intros I. apply NoDup_remove_2 in ND. apply ND.
      apply in_or_app. now left. }
    assert (Hrest : ~ In h (dict_keys hs)).
    { intros I. apply NoDup_remove_2 in ND. apply ND.
      apply in_or_app. now right. }
    rewrite dict_set_fresh by assumption.
    rewrite (IH c).
    + rewrite G by (left; reflexivity). rewrite <- app_assoc. reflexivity.
    + unfold dict_keys. rewrite map_app. simpl.
      rewrite <- app_assoc. simpl. exact ND.
    + intros h' I. rewrite get_update_other.
      * apply G. now right.
      * intros ->. contradiction.
Qed.

Lemma capture_and_override_spec hs c :
  NoDup (dict_keys hs) ->
  capture_and_override conn hs c =
  (overridden conn hs c,
   map (fun hv => (fst hv, get_headers conn c (fst hv))) hs).
Proof.
  intros ND.
  exact (capture_and_override_from hs c c [] ND (fun _ _ => eq_refl)).
Qed.

Lemma restore_headers_other orig : forall c h,
  ~ In h (dict_keys orig) ->
  get_headers conn (restore_headers conn orig c) h = get_headers conn c h.
Proof.
  induction orig as [|[k v] r IH]; intros c h H; simpl in *; [reflexivity|].
  unfold restore_headers in *. simpl. rewrite IH by tauto.
  apply get_update_other. intros ->. tauto.
Qed.

(** The second loop leaves every recorded header at its recorded
    value, whatever the client was before. *)
Lemma restore_headers_spec orig : forall c h v,
  NoDup (dict_keys orig) -> In (h, v) orig ->
  get_headers conn (restore_headers conn orig c) h = v.
Proof.
  induction orig as [|[k x] r IH]; intros c h v ND I; simpl in *; [tauto|].
  inversion ND as [|? ? Hk ND']; subst.
  unfold restore_headers in *. simpl.
  destruct I as [[= -> ->]|I].
  - pose proof (restore_headers_other r (update_header conn c h v) h Hk) as R.
    unfold restore_headers in R. rewrite R. apply get_update_same.
  - now apply IH.
Qed.

Lemma effective_headers_NoDup hdrs fmt :
  NoDup (dict_keys (match hdrs with None => [] | Some h => h end)) ->
  NoDup (dict_keys (effective_headers hdrs fmt)).
Proof.
  intros ND. unfold effective_headers.
  destruct (String.eqb fmt "json"); [now apply dict_set_NoDup | exact ND].
Qed.

(** C5: when a call of [Request] returns, every header it overrode
    (the [Accept] header of the json format among them) has on the
    shared client the value it had before the call, and the values
    written back are the ones read before the overrides. *)
Theorem Request_restores_headers c url hdrs fmt tk return_url onlyParse
    no_content fuel r :
  NoDup (dict_keys (match hdrs with None => [] | Some h => h end)) ->
  snd (Request loads conn c url hdrs fmt tk return_url onlyParse no_content
         fuel) = Returns r ->
  snd (capture_and_override conn (effective_headers hdrs fmt) c) =
    map (fun hv => (fst hv, get_headers conn c (fst hv)))
        (effective_headers hdrs fmt) /\
  forall h, In h (dict_keys (effective_headers hdrs fmt)) ->
    get_headers conn
      (fst (Request loads conn c url hdrs fmt tk return_url onlyParse
              no_content fuel)) h
    = get_headers conn c h.
Proof.
  intros ND HR. apply (effective_headers_NoDup hdrs fmt) in ND.
  set (hs := effective_headers hdrs fmt) in *.
  split; [now rewrite capture_and_override_spec|].
  intros h I. revert HR. unfold Request. fold hs.
  rewrite capture_and_override_spec by exact ND.
  destruct (fetch conn url [("format", fmt)] return_url (overridden conn hs c))
    as [c2 [response| e |]]; simpl; try discriminate.
  intros _. unfold dict_keys in I. apply in_map_iff in I.
  destruct I as ([h' v] & <- & I). simpl.
  apply restore_headers_spec.
  - unfold dict_keys. rewrite map_map. simpl. exact ND.
  - apply in_map_iff. exists (h', v). split; [reflexivity | exact I].
Qed.

(** When the fetch raises, [Request] raises the same exception and the
    overrides stay on the client. *)
Lemma Request_fetch_raises c url hdrs fmt tk return_url onlyParse no_content
    fuel c2 e :
  fetch conn url [("format", fmt)] return_url
    (fst (capture_and_override conn (effective_headers hdrs fmt) c))
  = (c2, Raises e) ->
  Request loads conn c url hdrs fmt tk return_url onlyParse no_content fuel
  = (c2, Raises e).
Proof.
  unfold Request.
  destruct (capture_and_override conn (effective_headers hdrs fmt) c)
    as [c1 orig]. simpl. intros ->. reflexivity.
Qed.

(** C4: when the fetch returns a response, no exception leaves
    [Request], and when normalizing the response raises, [Request]
    returns the response as it was fetched. *)
Theorem Request_falls_back_to_raw_response c url hdrs fmt tk return_url
    onlyParse no_content fuel c2 response :
  fetch conn url [("format", fmt)] return_url
    (fst (capture_and_override conn (effective_headers hdrs fmt) c))
  = (c2, Returns response) ->
  (forall e,
     snd (Request loads conn c url hdrs fmt tk return_url onlyParse
            no_content fuel) <> Raises e) /\
  (forall e,
     normalize_response loads fuel response tk onlyParse no_content
       = Raises e ->
     snd (Request loads conn c url hdrs fmt tk return_url onlyParse
            no_content fuel) = Returns response).
Proof.
  unfold Request.
  destruct (capture_and_override conn (effective_headers hdrs fmt) c)
    as [c1 orig]. simpl. intros ->. simpl. split.
  - intros e.
    destruct (normalize_response loads fuel response tk onlyParse no_content);
      discriminate.
  - intros e ->. reflexivity.
Qed.

End DispatcherFacts.

(** ** The mapping resolver *)

Lemma dict_get_set {A} (d : dict_of A) k v x :
  dict_get (dict_set d k v) x =
  if String.eqb k x then Some v else dict_get d x.
Proof.
  induction d as [|[k' y] r IH]; simpl; [reflexivity|].
  destruct (String.eqb_spec k' k) as [->|Hne]; simpl.
  - destruct (String.eqb k x); reflexivity.
  - rewrite IH. destruct (String.eqb_spec k x) as [->|_]; [|reflexivity].
    destruct (String.eqb_spec k' x); [contradiction | reflexivity].
Qed.

Lemma dict_get_NoDup {A} (d : dict_of A) k v :
  NoDup (dict_keys d) -> In (k, v) d -> dict_get d k = Some v.
Proof.
  induction d as [|[k' y] r IH]; simpl; intros ND I; [tauto|].
  inversion ND as [|? ? Hk ND']; subst.
  destruct I as [[= -> ->]|I].
  - now rewrite String.eqb_refl.
  - destruct (String.eqb_spec k' k) as [->|_]; [|now apply IH].
    destruct Hk. unfold dict_keys. apply in_map_iff. now exists (k, v).
Qed.

Lemma find_last_cons {A} (f : A -> bool) x l :
  find_last f (x :: l) =
  match find_last f l with
  | Some y => Some y
  | None => if f x then Some x else None
  end.
Proof.
  unfold find_last. simpl. induction (rev l) as [|y r IH]; simpl.
  - reflexivity.
  - destruct (f y); [reflexivity | exact IH].
Qed.

Lemma find_last_app {A} (f : A -> bool) l1 l2 :
  find_last f (l1 ++ l2) =
  match find_last f l2 with
  | Some y => Some y
  | None => find_last f l1
  end.
Proof.
  unfold find_last. rewrite rev_app_distr.
  induction (rev l2) as [|y r IH]; simpl; [reflexivity|].
  destruct (f y); [reflexivity | exact IH].
Qed.

Lemma find_last_In {A} (f : A -> bool) l x :
  find_last f l = Some x -> In x l /\ f x = true.
Proof.
  unfold find_last. intros H. apply find_some in H.
  destruct H as [I E]. split; [now apply in_rev | exact E].
Qed.

Lemma find_last_none {A} (f : A -> bool) l :
  (forall x, In x l -> f x = false) -> find_last f l = None.
Proof.
  intros H. unfold find_last.
  destruct (find f (rev l)) as [x|] eqn:E; [|reflexivity].
  apply find_some in E. destruct E as [I E].
  rewrite (H x) in E by now apply in_rev. discriminate.
Qed.

(** The dict of lower-cased keys answers with the last key of the
    mapping that equals the label. *)
Lemma lower_case_mappings_get x mappings :
  dict_get (lower_case_mappings_of mappings) x =
  option_map fst (find_last (fun kv => is_canonical x (fst kv)) mappings).
Proof.
  unfold lower_case_mappings_of.
  assert (G : forall acc : dict_of string,
    dict_get (fold_left (fun acc key => dict_set acc (lower key) key)
                        (dict_keys mappings) acc) x =
    match find_last (fun kv => is_canonical x (fst kv)) mappings with
    | Some kv => Some (fst kv)
    | None => dict_get acc x
    end).
  { induction mappings as [|[k v] r IH]; intros acc; [reflexivity|].
    simpl. rewrite IH, find_last_cons.
    destruct (find_last (fun kv => is_canonical x (fst kv)) r);
      [reflexivity|].
    rewrite dict_get_set. unfold is_canonical. simpl.
    destruct (String.eqb (lower k) x); reflexivity. }
  rewrite G.
  destruct (find_last (fun kv => is_canonical x (fst kv)) mappings);
    reflexivity.
Qed.

Lemma synonyms_get x key names : forall acc : dict_of string,
  dict_get (fold_left
              (fun inverse_mappings synonym =>
                 dict_set inverse_mappings (lower synonym) key)
              names acc) x =
  if existsb (fun name => String.eqb (lower name) x) names
  then Some key else dict_get acc x.
Proof.
  induction names as [|n r IH]; intros acc; simpl; [reflexivity|].
  rewrite IH, dict_get_set.
  destruct (existsb (fun name => String.eqb (lower name) x) r);
    [now rewrite orb_true_r|].
  rewrite orb_false_r. destruct (String.eqb (lower n) x); reflexivity.
Qed.

(** The dict of lower-cased display names answers with the key of the
    last entry of the mapping that records the label. *)
Lemma inverse_mappings_get x mappings :
  dict_get (inverse_mappings_of mappings) x =
  option_map fst (find_last (fun kv => is_synonym x (snd kv)) mappings).
Proof.
  unfold inverse_mappings_of.
  assert (G : forall acc : dict_of string,
    dict_get
      (fold_left
         (fun inverse_mappings (kv : string * mapping_value) =>
            let (key, value) := kv in
            match value with
            | Synonyms names =>
              fold_left
                (fun inverse_mappings synonym =>
                   dict_set inverse_mappings (lower synonym) key)
                names inverse_mappings
            | Single name => dict_set inverse_mappings (lower name) key
            end)
         mappings acc) x =
    match find_last (fun kv => is_synonym x (snd kv)) mappings with
    | Some kv => Some (fst kv)
    | None => dict_get acc x
    end).
  { induction mappings as [|[k v] r IH]; intros acc; [reflexivity|].
    simpl. rewrite IH, find_last_cons.
    destruct (find_last (fun kv => is_synonym x (snd kv)) r); [reflexivity|].
    unfold is_synonym. simpl. destruct v as [name|names]; simpl.
    - rewrite dict_get_set, orb_false_r.
      destruct (String.eqb (lower name) x); reflexivity.
    - rewrite synonyms_get.
      destruct (existsb (fun name => String.eqb (lower name) x) names);
        reflexivity. }
  rewrite G.
  destruct (find_last (fun kv => is_synonym x (snd kv)) mappings);
    reflexivity.
Qed.

(** C9: [key_from_mapping] strips and lower-cases the label, looks for
    it among the canonical keys first (and returns the key, or the value
    under it when [invert] is set), then among the display names (and
    returns the key they belong to), and returns [None] otherwise. *)
Theorem key_from_mapping_resolves input_str mappings invert :
  NoDup (dict_keys mappings) ->
  key_from_mapping input_str mappings invert =
  Returns (resolve_label input_str mappings invert).
Proof.
  intros ND. unfold key_from_mapping, resolve_label.
  rewrite lower_case_mappings_get, inverse_mappings_get.
  destruct (find_last
              (fun kv => is_canonical (lower (strip input_str)) (fst kv))
              mappings) as [[k v]|] eqn:E; simpl.
  - destruct invert; [|reflexivity].
    apply find_last_In in E. destruct E as [I _].
    now rewrite (dict_get_NoDup mappings k v ND I).
  - destruct (find_last
                (fun kv => is_synonym (lower (strip input_str)) (snd kv))
                mappings) as [[k v]|]; reflexivity.
Qed.

(** C8, as the code has it: when a label that is no canonical key is
    recorded as a display name under two keys, [key_from_mapping]
    resolves it to the later one of the mapping. *)
Theorem key_from_mapping_later_key_wins input_str mappings invert
    pre k1 v1 mid k2 v2 post :
  mappings = pre ++ (k1, v1) :: mid ++ (k2, v2) :: post ->
  is_synonym (lower (strip input_str)) v1 = true ->
  is_synonym (lower (strip input_str)) v2 = true ->
  (forall kv, In kv post ->
     is_synonym (lower (strip input_str)) (snd kv) = false) ->
  (forall kv, In kv mappings ->
     is_canonical (lower (strip input_str)) (fst kv) = false) ->
  key_from_mapping input_str mappings invert = Returns (Some (Key k2)).
Proof.
  intros -> _ S2 Hpost Hcanon. unfold key_from_mapping.
  rewrite lower_case_mappings_get, inverse_mappings_get.
  rewrite (find_last_none _ _ Hcanon). simpl.
  replace (pre ++ (k1, v1) :: mid ++ (k2, v2) :: post)
    with ((pre ++ (k1, v1) :: mid) ++ (k2, v2) :: post)
    by (rewrite <- app_assoc; reflexivity).
  set (front := pre ++ (k1, v1) :: mid).
  assert (L : find_last
                (fun kv => is_synonym (lower (strip input_str)) (snd kv))
                (front ++ (k2, v2) :: post) = Some (k2, v2)).
  { rewrite find_last_app, find_last_cons, (find_last_none _ _ Hpost).
    simpl. now rewrite S2. }
  rewrite L. reflexivity.
Qed.

(** C8, as the claim has it, fails: [coin] is recorded under [btc] and
    under [eth], and resolves to [eth], the later key. *)
Lemma key_from_mapping_earlier_key_loses :
  key_from_mapping "coin"
    [("btc", Synonyms ["coin"]); ("eth", Synonyms ["coin"])] false
  = Returns (Some (Key "eth")) /\
  key_from_mapping "coin"
    [("btc", Synonyms ["coin"]); ("eth", Synonyms ["coin"])] false
  <> Returns (Some (Key "btc")).
Proof. split; [reflexivity | discriminate]. Qed.

(** ** The decoder *)

Module JsonFacts.

Import Json.
Local Open Scope char_scope.

Lemma length_list_ascii_of_string s :
  List.length (list_ascii_of_string s) = String.length s.
Proof. induction s; simpl; congruence. Qed.

Lemma length_string_of_list_ascii cs :
  String.length (string_of_list_ascii cs) = List.length cs.
Proof. induction cs; simpl; congruence. Qed.

Lemma skip_ws_length s : List.length (skip_ws s) <= List.length s.
Proof.
  induction s as [|c r IH]; simpl; [lia|].
  destruct (is_ws c); simpl; lia.
Qed.

Lemma strip_prefix_length p : forall s r,
  strip_prefix p s = Some r -> List.length r + List.length p = List.length s.
Proof.
  induction p as [|a p IH]; intros s r; simpl.
  - intros [= ->]. lia.
  - destruct s as [|b s]; [discriminate|].
    destruct (Ascii.eqb a b); [|discriminate].
    intros H. apply IH in H. simpl. lia.
Qed.

Lemma parse_chars_length n : forall s cs r,
  List.length s <= n ->
  parse_chars s = Some (cs, r) ->
  List.length cs + List.length r + 1 <= List.length s.
Proof.
  induction n as [|n IH]; intros s cs r L; destruct s as [|c s];
    simpl in *; try discriminate; try lia.
  destruct (Ascii.eqb c "034").
  - intros [= <- <-]. simpl. lia.
  - destruct (Ascii.eqb c "\").
    + destruct s as [|e s]; [discriminate|].
      destruct (unescape e); [|discriminate].
      destruct (parse_chars s) as [[cs' r']|] eqn:E; [|discriminate].
      intros [= <- <-]. apply IH in E; simpl in *; lia.
    + destruct (Nat.ltb (nat_of_ascii c) 32); [discriminate|].
      destruct (parse_chars s) as [[cs' r']|] eqn:E; [|discriminate].
      intros [= <- <-]. apply IH in E; simpl in *; lia.
Qed.

Lemma parse_digits_length s : forall acc n r,
  parse_digits acc s = (n, r) -> List.length r <= List.length s.
Proof.
  induction s as [|c s IH]; intros acc n r; simpl.
  - intros [= _ <-]. simpl. lia.
  - destruct (is_digit c).
    + intros H. apply IH in H. lia.
    + intros [= _ <-]. simpl. lia.
Qed.

Lemma parse_nat_length s n r :
  parse_nat s = Some (n, r) -> List.length r + 1 <= List.length s.
Proof.
  unfold parse_nat. destruct s as [|c s]; [discriminate|].
  destruct (is_digit c) eqn:D; [|discriminate].
  destruct (Ascii.eqb c "0").
  - destruct s as [|d s'].
    + intros [= _ <-]. simpl. lia.
    + destruct (Ascii.eqb d "." || (Ascii.eqb d "e" || Ascii.eqb d "E"))%bool;
        [discriminate|].
      intros [= _ <-]. simpl. lia.
  - destruct (parse_digits 0 (c :: s)) as [m rest] eqn:P.
    simpl in P. rewrite D in P. apply parse_digits_length in P.
    destruct rest as [|d rest'].
    + intros [= _ <-]. simpl. lia.
    + destruct (Ascii.eqb d "." || (Ascii.eqb d "e" || Ascii.eqb d "E"))%bool;
        [discriminate|].
      intros [= _ <-]. simpl in *. lia.
Qed.

Lemma parse_int_length s n r :
  parse_int s = Some (n, r) -> List.length r + 1 <= List.length s.
Proof.
  unfold parse_int. destruct s as [|c s]; [discriminate|].
  destruct (Ascii.eqb c "-").
  - destruct (parse_nat s) as [[m rest]|] eqn:P; [|discriminate].
    intros [= _ <-]. apply parse_nat_length in P. simpl. lia.
  - apply parse_nat_length.
Qed.

Lemma dict_set_weight (d : dict) k v :
  weights (dict_values (dict_set d k v)) <= weights (dict_values d) + weight v.
Proof.
  induction d as [|[k' x] r IH]; simpl; [lia|].
  destruct (String.eqb k' k); simpl in *; lia.
Qed.

Section Elements.

Variable p : list ascii -> option (value * list ascii).
Hypothesis p_weight : forall s v r,
  p s = Some (v, r) -> weight v + List.length r <= List.length s.

Lemma parse_elems_weight k : forall s vs r,
  parse_elems p k s = Some (vs, r) ->
  weights vs + List.length r + 1 <= List.length s.
Proof.
  induction k as [|k IH]; intros s vs r; simpl; [discriminate|].
  destruct (p s) as [[v r1]|] eqn:P; [|discriminate].
  apply p_weight in P. pose proof (skip_ws_length r1) as W1.
  destruct (skip_ws r1) as [|c r2]; [discriminate|].
  destruct (Ascii.eqb c "]").
  - intros [= <- <-]. simpl in *. lia.
  - destruct (Ascii.eqb c ","); [|discriminate].
    destruct (parse_elems p k (skip_ws r2)) as [[vs' rest]|] eqn:E;
      [|discriminate].
    intros [= <- <-]. apply IH in E.
    pose proof (skip_ws_length r2). simpl in *. lia.
Qed.

Lemma parse_pairs_weight k : forall acc s d r,
  parse_pairs p k acc s = Some (d, r) ->
  weights (dict_values d) + List.length r + 1
  <= weights (dict_values acc) + List.length s.
Proof.
  induction k as [|k IH]; intros acc s d r; simpl; [discriminate|].
  destruct s as [|q r0]; [discriminate|].
  destruct (Ascii.eqb q "034"); [|discriminate].
  destruct (parse_chars r0) as [[key r1]|] eqn:K; [|discriminate].
  apply (parse_chars_length (List.length r0)) in K; [|lia].
  pose proof (skip_ws_length r1) as W1.
  destruct (skip_ws r1) as [|c r2]; [discriminate|].
  destruct (Ascii.eqb c ":"); [|discriminate].
  pose proof (skip_ws_length r2) as W2.
  destruct (p (skip_ws r2)) as [[v r3]|] eqn:P; [|discriminate].
  apply p_weight in P.
  pose proof (dict_set_weight acc (string_of_list_ascii key) v) as WS.
  pose proof (skip_ws_length r3) as W3.
  destruct (skip_ws r3) as [|e r4]; [discriminate|].
  destruct (Ascii.eqb e "}").
  - intros [= <- <-]. simpl in *. lia.
  - destruct (Ascii.eqb e ","); [|discriminate].
    intros H. apply IH in H.
    pose proof (skip_ws_length r4). simpl in *. lia.
Qed.

End Elements.

Lemma parse_value_weight n : forall s v r,
  parse_value n s = Some (v, r) -> weight v + List.length r <= List.length s.
Proof.
  induction n as [|n IH]; intros s v r; [discriminate|].
  cbn -[strip_prefix parse_chars skip_ws parse_elems parse_pairs parse_int
        Ascii.eqb weight].
  destruct s as [|c s]; [discriminate|].
  destruct (Ascii.eqb c "n").
  { destruct (strip_prefix ["u"; "l"; "l"] s) as [rest|] eqn:P;
      simpl; [|discriminate].
    intros [= <- <-]. apply strip_prefix_length in P. simpl in *. lia. }
  destruct (Ascii.eqb c "t").
  { destruct (strip_prefix ["r"; "u"; "e"] s) as [rest|] eqn:P;
      simpl; [|discriminate].
    intros [= <- <-]. apply strip_prefix_length in P. simpl in *. lia. }
  destruct (Ascii.eqb c "f").
  { destruct (strip_prefix ["a"; "l"; "s"; "e"] s) as [rest|] eqn:P;
      simpl; [|discriminate].
    intros [= <- <-]. apply strip_prefix_length in P. simpl in *. lia. }
  destruct (Ascii.eqb c "034").
  { destruct (parse_chars s) as [[cs rest]|] eqn:P; [|discriminate].
    intros [= <- <-].
    apply (parse_chars_length (List.length s)) in P; [|lia].
    simpl. rewrite length_string_of_list_ascii. lia. }
  destruct (Ascii.eqb c "[").
  { pose proof (skip_ws_length s) as W.
    destruct (skip_ws s) as [|d r'] eqn:S; [discriminate|].
    destruct (Ascii.eqb d "]").
    - intros [= <- <-]. simpl in *. lia.
    - destruct (parse_elems (parse_value n) (List.length s) (d :: r'))
        as [[vs rest]|] eqn:E; [|discriminate].
      intros [= <- <-]. apply (parse_elems_weight _ IH) in E.
      rewrite weight_VList. simpl in *. lia. }
  destruct (Ascii.eqb c "{").
  { pose proof (skip_ws_length s) as W.
    destruct (skip_ws s) as [|d r'] eqn:S; [discriminate|].
    destruct (Ascii.eqb d "}").
    - intros [= <- <-]. simpl in *. lia.
    - destruct (parse_pairs (parse_value n) (List.length s) [] (d :: r'))
        as [[kvs rest]|] eqn:E; [|discriminate].
      intros [= <- <-]. apply (parse_pairs_weight _ IH) in E.
      rewrite weight_VDict. simpl in *. lia. }
  destruct (parse_int (c :: s)) as [[z rest]|] eqn:P; [|discriminate].
  intros [= <- <-]. apply parse_int_length in P. simpl in *. lia.
Qed.

(** The decoder is shrinking: the theorems on the normalizer apply to
    it. *)
Lemma loads_shrinking : shrinking loads.
Proof.
  intros s v. unfold loads.
  destruct (parse_value (S (List.length (list_ascii_of_string s)))
              (skip_ws (list_ascii_of_string s))) as [[v' rest]|] eqn:P;
    [|discriminate].
  destruct (skip_ws rest); [|discriminate].
  intros [= <-]. apply parse_value_weight in P.
  pose proof (skip_ws_length (list_ascii_of_string s)).
  rewrite length_list_ascii_of_string in *. lia.
Qed.

End JsonFacts.

(** ** Runs on concrete payloads *)

Module Examples.

Import Json.

(** The three payloads the specification gives. *)
Example extraction_of_one_match :
  normalize_response loads 20
    (VDict [("a", VStr "1"); ("response", VDict [("x", VInt 1)])])
    "response" false false
  = Returns (VDict [("x", VInt 1)]).
Proof. reflexivity. Qed.

Example extraction_of_two_matches :
  normalize_response loads 20
    (VList [VDict [("response", VStr "5")]; VDict [("response", VStr "7")]])
    "response" false false
  = Returns (VList [VInt 5; VInt 7]).
Proof. reflexivity. Qed.

Example extraction_keeping_structure :
  normalize_response loads 20
    (VList [VDict [("response", VStr "5")]; VDict [("response", VStr "7")]])
    "response" false true
  = Returns (VList [VDict [("response", VInt 5)];
                    VDict [("response", VInt 7)]]).
Proof. reflexivity. Qed.

(** A match inside a string that encodes a structure is found. *)
Example extraction_through_a_string :
  normalize_response loads 40
    (VList [VStr (text "{'response': [1, 2]}"); VDict [("response", VNone)]])
    "response" false false
  = Returns (VList [VList [VInt 1; VInt 2]; VNone]).
Proof. reflexivity. Qed.

Lemma normalize_response_many_witness :
  shrinking loads /\
  occurs loads "response"
    (VList [VDict [("response", VStr "5")]; VDict [("response", VStr "7")]])
    2 /\
  1 < 2 /\
  weight
    (VList [VDict [("response", VStr "5")]; VDict [("response", VStr "7")]])
    <= 20 /\
  exists ms rs,
    discovers loads "response" false
      (VList [VDict [("response", VStr "5")]; VDict [("response", VStr "7")]])
      ms /\
    List.length ms = 2 /\
    normalize_response loads 20
      (VList [VDict [("response", VStr "5")]; VDict [("response", VStr "7")]])
      "response" false false = Returns (VList rs) /\
    List.length rs = 2 /\
    Forall2 (deep_parsed loads) ms rs /\
    Forall (irreducible loads) rs /\
    Forall2 (fun m r => deep_parse_json loads 20 m = Returns r) ms rs.
Proof.
  assert (O : occurs loads "response"
                (VList [VDict [("response", VStr "5")];
                        VDict [("response", VStr "7")]]) 2).
  { exists [VStr "5"; VStr "7"]. split; [|reflexivity].
    apply (discovers_by_run loads "response" false 20). reflexivity. }
  assert (W : weight
                (VList [VDict [("response", VStr "5")];
                        VDict [("response", VStr "7")]]) <= 20)
    by (simpl; lia).
  split; [exact JsonFacts.loads_shrinking|].
  split; [exact O|]. split; [lia|]. split; [exact W|].
  apply (normalize_response_many loads JsonFacts.loads_shrinking
           _ "response" false 2 20 O); [lia | exact W].
Defined.

Lemma normalize_response_no_match_witness :
  shrinking loads /\
  occurs loads "response" (VDict [("a", VStr "1"); ("b", VList [VStr "zz"])])
    0 /\
  weight (VDict [("a", VStr "1"); ("b", VList [VStr "zz"])]) <= 20 /\
  normalize_response loads 20
    (VDict [("a", VStr "1"); ("b", VList [VStr "zz"])]) "response" false true
  = Returns (VList []).
Proof.
  assert (O : occurs loads "response"
                (VDict [("a", VStr "1"); ("b", VList [VStr "zz"])]) 0).
  { exists []. split; [|reflexivity].
    apply (discovers_by_run loads "response" false 20). reflexivity. }
  split; [exact JsonFacts.loads_shrinking|]. split; [exact O|].
  split; [simpl; lia|].
  apply (normalize_response_no_match loads JsonFacts.loads_shrinking
           _ "response" true 20 O). simpl; lia.
Defined.

Lemma normalize_response_empty_list_raises_witness :
  shrinking loads /\
  discovers loads "response" false (VDict [("response", VList [])])
    [VList []] /\
  weight (VDict [("response", VList [])]) <= 2 /\
  occurs loads "response" (VDict [("response", VList [])]) 1 /\
  normalize_response loads 2 (VDict [("response", VList [])])
    "response" false false = Raises IndexError.
Proof.
  assert (D : discovers loads "response" false
                (VDict [("response", VList [])]) [VList []]).
  { apply (discovers_by_run loads "response" false 2). reflexivity. }
  split; [exact JsonFacts.loads_shrinking|]. split; [exact D|].
  split; [simpl; lia|].
  apply (normalize_response_empty_list_raises loads
           JsonFacts.loads_shrinking _ "response" 2 D). simpl; lia.
Defined.

Lemma deep_parse_json_idempotent_witness :
  shrinking loads /\
  weight (VList [VStr (text "{'a': '[1, null]'}"); VStr "abc"]) <= 40 /\
  exists y,
    deep_parse_json loads 40
      (VList [VStr (text "{'a': '[1, null]'}"); VStr "abc"]) = Returns y /\
    deep_parse_json loads 40 y = Returns y.
Proof.
  split; [exact JsonFacts.loads_shrinking|]. split; [simpl; lia|].
  apply (deep_parse_json_idempotent loads JsonFacts.loads_shrinking).
  simpl; lia.
Defined.

Lemma undecodable_string_is_a_silent_leaf_witness :
  loads "abc" = None /\
  discovers loads "response" false (VStr "abc") [] /\
  normalize loads 1 (VStr "abc") "response" false (Some [VInt 7])
  = Returns [VInt 7].
Proof.
  split; [reflexivity|].
  apply (proj1 (undecodable_string_is_a_silent_leaf loads)). reflexivity.
Defined.

Lemma Request_falls_back_to_raw_response_witness :
  fetch stub_connection (UrlStr "https://example.org") [("format", "html")]
    true
    (fst (capture_and_override stub_connection
            (effective_headers None "html") client0))
  = (stub_update_base_url client0 "https://example.org",
     Returns (VDict [("response", VList [])])) /\
  normalize_response loads 20 (VDict [("response", VList [])]) "response"
    false false = Raises IndexError /\
  snd (Request loads stub_connection client0 (UrlStr "https://example.org")
         None "html" "response" true false false 20)
  = Returns (VDict [("response", VList [])]).
Proof.
  split; [reflexivity|]. split; [reflexivity|].
  apply (proj2 (Request_falls_back_to_raw_response loads stub_connection
                  client0 (UrlStr "https://example.org") None "html"
                  "response" true false false 20
                  (stub_update_base_url client0 "https://example.org")
                  (VDict [("response", VList [])]) eq_refl) IndexError).
  reflexivity.
Defined.

Lemma Request_restores_headers_witness :
  NoDup (dict_keys [("User-Agent", "probe")]) /\
  snd (Request loads stub_connection client0 (UrlList ["https://a"; "https://b"])
         (Some [("User-Agent", "probe")]) "json" "response" true false false
         20)
  = Returns (VDict [("response", VList [])]) /\
  get_headers stub_connection
    (fst (Request loads stub_connection client0
            (UrlList ["https://a"; "https://b"])
            (Some [("User-Agent", "probe")]) "json" "response" true false
            false 20)) "Accept"
  = Some "text/html" /\
  get_headers stub_connection
    (fst (Request loads stub_connection client0
            (UrlList ["https://a"; "https://b"])
            (Some [("User-Agent", "probe")]) "json" "response" true false
            false 20)) "User-Agent"
  = None.
Proof.
  assert (ND : NoDup (dict_keys [("User-Agent", "probe")])).
  { simpl. constructor; [simpl; tauto | constructor]. }
  split; [exact ND|]. split; [reflexivity|].
  pose proof (proj2 (Request_restores_headers loads stub_connection client0
                       (UrlList ["https://a"; "https://b"])
                       (Some [("User-Agent", "probe")]) "json" "response"
                       true false false 20
                       (VDict [("response", VList [])]) ND eq_refl)) as R.
  split.
  - apply (R "Accept"). simpl. tauto.
  - apply (R "User-Agent"). simpl. tauto.
Defined.

Lemma key_from_mapping_resolves_witness :
  NoDup (dict_keys [("btc", Synonyms ["Bitcoin"; "coin"]);
                    ("eth", Single "Ether")]) /\
  key_from_mapping "  BTC " [("btc", Synonyms ["Bitcoin"; "coin"]);
                              ("eth", Single "Ether")] true
  = Returns (Some (Value (Synonyms ["Bitcoin"; "coin"]))).
Proof.
  assert (ND : NoDup (dict_keys [("btc", Synonyms ["Bitcoin"; "coin"]);
                                 ("eth", Single "Ether")])).
  { simpl. repeat constructor; simpl; intuition discriminate. }
  split; [exact ND|].
  exact (key_from_mapping_resolves "  BTC " _ true ND).
Defined.

Lemma key_from_mapping_later_key_wins_witness :
  key_from_mapping "  COIN "
    [("btc", Synonyms ["Bitcoin"; "coin"]); ("ltc", Single "Litecoin");
     ("eth", Single "Coin"); ("doge", Single "Dogecoin")] false
  = Returns (Some (Key "eth")).
Proof.
  apply (key_from_mapping_later_key_wins "  COIN " _ false
           [] "btc" (Synonyms ["Bitcoin"; "coin"])
           [("ltc", Single "Litecoin")] "eth" (Single "Coin")
           [("doge", Single "Dogecoin")]).
  - reflexivity.
  - reflexivity.
  - reflexivity.
  - simpl. intros kv [<-|[]]. reflexivity.
  - simpl. intros kv [<-|[<-|[<-|[<-|[]]]]]; reflexivity.
Defined.

End Examples.

(** * Further properties *)

(** ** The normalizer, beyond the claims *)

Section NormalizerMore.

Variable loads : string -> option value.
Hypothesis loads_shrinks : shrinking loads.

(** The wrapper the kept structure puts around a value. *)
Lemma deep_parse_wrapped tk v r fuel :
  weight v < fuel ->
  deep_parse_json loads fuel v = Returns r ->
  deep_parse_json loads fuel (VDict [(tk, v)]) = Returns (VDict [(tk, r)]).
Proof.
  intros W D. destruct fuel as [|n]; [lia|].
  destruct (deep_parse_total loads loads_shrinks n v) as (r' & D' & _); [lia|].
  pose proof (deep_parse_json_fuel loads n (S n) v r' D' (Nat.le_succ_diag_r n))
    as D''.
  rewrite D'' in D. injection D as <-.
  rewrite deep_parse_dict. simpl. rewrite D'. reflexivity.
Qed.

(** Every result of [normalize_response] in extraction mode, by the
    matches of the walk. *)
Lemma normalize_response_cases [payload tk ks ms fuel] :
  discovers loads tk ks payload ms -> weight payload <= fuel ->
  normalize_response loads fuel payload tk false ks =
  match ms with
  | [VList []] => Raises IndexError
  | [VList (x :: _)] => deep_parse_json loads fuel x
  | [m] => deep_parse_json loads fuel m
  | _ => rs <- comprehension (deep_parse_json loads fuel) ms ;;
         Returns (VList rs)
  end.
Proof.
  intros D W. rewrite (normalize_response_shape loads loads_shrinks D W).
  destruct ms as [|m [|m' ms]]; [reflexivity | |
    destruct m as [| b | z | s | [|x l] | d]; reflexivity].
  destruct m as [| b | z | s | [|x l] | d]; try reflexivity.
  simpl. unfold try_except.
  destruct (deep_parse_json loads fuel x) as [r| e |] eqn:E; try reflexivity.
  destruct (deep_parse_no_raise loads _ _ _ E).
Qed.

Lemma normalize_response_not_one [payload tk ks ms fuel] :
  discovers loads tk ks payload ms -> weight payload <= fuel ->
  List.length ms <> 1 ->
  normalize_response loads fuel payload tk false ks =
  (rs <- comprehension (deep_parse_json loads fuel) ms ;; Returns (VList rs)).
Proof.
  intros D W L. rewrite (normalize_response_shape loads loads_shrinks D W).
  destruct (Nat.eqb_spec (List.length ms) 1); [contradiction | reflexivity].
Qed.




(** X4: [normalize_response] raises exactly when it extracts without
    keeping the structure and the only match is the empty list; the
    exception is then [IndexError]. *)
Theorem normalize_response_raises_iff payload tk onlyNormalize ks fuel e :
  weight payload <= fuel ->
  normalize_response loads fuel payload tk onlyNormalize ks = Raises e <->
  onlyNormalize = false /\ ks = false /\ e = IndexError /\
  discovers loads tk false payload [VList []].
Proof.
  intros W. split.
  - intros H. pose proof (normalize_response_raises loads _ _ _ _ _ _ H) as ->.
    destruct onlyNormalize.
    { unfold normalize_response in H.
      destruct (deep_parse_no_raise loads _ _ _ H). }
    destruct (normalize_walk loads loads_shrinks tk ks fuel payload W)
      as (ms & D & _).
    assert (Hm : ms = [VList []]).
    { destruct ms as [|m [|m' ms']].
      - rewrite (normalize_response_cases D W) in H. discriminate.
      - rewrite (normalize_response_cases D W) in H.
        destruct m as [| b | z | s | [|x l] | d]; try reflexivity;
          destruct (deep_parse_no_raise loads _ _ _ H).
      - rewrite (normalize_response_not_one D W) in H by (simpl; lia).
        match type of H with bind ?c _ = _ =>
          destruct c as [rs| e' |] eqn:C end; simpl in H; try discriminate.
        destruct (comprehension_no_raise _ _
                    (deep_parse_no_raise loads fuel) e' C). }
    subst ms. destruct ks.
    + destruct (normalize_walk loads loads_shrinks tk false fuel payload W)
        as (ms0 & D0 & _).
      pose proof (proj1 (discovers_recorded loads tk true) _ _ D0) as D1.
      pose proof (proj1 (discovers_functional loads tk true) _ _ D _ D1) as E.
      destruct ms0 as [|m0 [|m1 ms0]]; discriminate.
    + repeat split. exact D.
  - intros (-> & -> & -> & D).
    rewrite (normalize_response_cases D W). reflexivity.
Qed.

(** X5: when the target key does not occur exactly once, keeping the
    structure only wraps each extracted value in a single-entry mapping
    under the key. *)
Theorem normalize_response_kept_wraps payload tk N rs fuel :
  occurs loads tk payload N -> N <> 1 -> weight payload <= fuel ->
  normalize_response loads fuel payload tk false false = Returns (VList rs) ->
  normalize_response loads fuel payload tk false true
  = Returns (VList (map (fun r => VDict [(tk, r)]) rs)).
Proof.
  intros (ms & D & L) HN W H.
  pose proof (proj1 (discovers_recorded loads tk true) _ _ D) as D1.
  pose proof (proj1 (discovers_weight loads loads_shrinks tk true) _ _ D1) as F.
  rewrite (normalize_response_not_one D W) in H by (rewrite L; exact HN).
  rewrite (normalize_response_not_one D1 W)
    by (rewrite length_map, L; exact HN).
  destruct (comprehension (deep_parse_json loads fuel) ms) as [rs'| |] eqn:C;
    simpl in H; try discriminate.
  injection H as <-.
  assert (C1 : comprehension (deep_parse_json loads fuel)
                 (map (recorded tk true) ms)
               = Returns (map (fun r => VDict [(tk, r)]) rs')).
  { apply comprehension_Forall2. apply comprehension_Forall2 in C.
    clear - C F W loads_shrinks. induction C as [|m r ms rs Hm _ IH]; simpl.
    - constructor.
    - simpl in F. inversion F as [|? ? Wm F']; subst.
      constructor; [|now apply IH].
      unfold recorded in *. rewrite weight_VDict in Wm. simpl in Wm.
      apply deep_parse_wrapped; [lia | exact Hm]. }
  rewrite C1. reflexivity.
Qed.


(** X8: [deep_parse_json] gives a value back unchanged exactly when no
    string in it decodes. *)
Theorem deep_parse_json_unchanged_iff v fuel :
  weight v <= fuel ->
  deep_parse_json loads fuel v = Returns v <-> irreducible loads v.
Proof.
  intros W. split.
  - intros H.
    destruct (deep_parse_total loads loads_shrinks fuel v W) as (r & D & I & _).
    rewrite D in H. injection H as ->. exact I.
  - intros I. now apply deep_parse_fixed.
Qed.

(** X9: a payload given as text that decodes is handled as the decoded
    payload is, in every mode. *)
Theorem normalize_response_of_text s v tk onlyNormalize ks fuel :
  loads s = Some v -> weight (VStr s) <= fuel ->
  normalize_response loads fuel (VStr s) tk onlyNormalize ks =
  normalize_response loads fuel v tk onlyNormalize ks.
Proof.
  intros E W. pose proof (loads_shrinks _ _ E) as Hs. simpl in W.
  destruct onlyNormalize.
  - unfold normalize_response. destruct fuel as [|n]; [lia|].
    rewrite (deep_parse_decoded loads n E).
    destruct (deep_parse_total loads loads_shrinks n v) as (r & D & _); [lia|].
    rewrite D. simpl. symmetry.
    apply (deep_parse_json_fuel loads n (S n) v r D). lia.
  - destruct (normalize_walk loads loads_shrinks tk ks fuel v) as (ms & D & _);
      [lia|].
    assert (Ds : discovers loads tk ks (VStr s) ms)
      by (econstructor; eassumption).
    rewrite (normalize_response_cases Ds) by (simpl; lia).
    rewrite (normalize_response_cases D) by lia. reflexivity.
Qed.

End NormalizerMore.

(** X7: [deep_parse_json] keeps the shape of what it is given: a mapping
    stays a mapping with the same keys in the same order, a sequence
    stays a sequence of the same length, other scalars are returned as
    they are. *)
Theorem deep_parse_json_keeps_shape loads fuel v r :
  deep_parse_json loads fuel v = Returns r ->
  match v with
  | VDict d => exists d', r = VDict d' /\ dict_keys d' = dict_keys d
  | VList l => exists l', r = VList l' /\ List.length l' = List.length l
  | VStr _ => True
  | _ => r = v
  end.
Proof.
  destruct fuel as [|n]; [discriminate|].
  destruct v as [| b | z | s | l | d]; try (intros [= <-]; reflexivity).
  - trivial.
  - rewrite deep_parse_list.
    destruct (comprehension (deep_parse_json loads n) l) as [l'| |] eqn:C;
      simpl; try discriminate.
    intros [= <-]. exists l'. split; [reflexivity|].
    apply comprehension_Forall2 in C. symmetry.
    exact (Forall2_length_eq _ _ _ C).
  - rewrite deep_parse_dict.
    match goal with |- bind ?c _ = _ -> _ =>
      destruct c as [d'| |] eqn:C end; simpl; try discriminate.
    intros [= <-]. exists d'. split; [reflexivity|].
    apply comprehension_Forall2 in C.
    induction C as [|[k x] [k' y] d d' H _ IH]; [reflexivity|].
    simpl in *. destruct (deep_parse_json loads n x); simpl in H;
      try discriminate.
    injection H as <- _. now rewrite IH.
Qed.

(** ** The dispatcher, beyond the claims *)

Lemma dict_set_In {A} (d : dict_of A) k v : In (k, v) (dict_set d k v).
Proof.
  induction d as [|[k' x] r IH]; simpl; [now left|].
  destruct (String.eqb_spec k' k) as [->|_]; [now left | now right].
Qed.

Lemma dict_keys_map_values {A B} (f : string * A -> B) (d : dict_of A) :
  dict_keys (map (fun kv => (fst kv, f kv)) d) = dict_keys d.
Proof. induction d as [|kv r IH]; simpl; [reflexivity | now rewrite IH]. Qed.

Section DispatcherMore.

Variable loads : string -> option value.
Variable conn : connection.

Lemma overridden_other hs : forall c h,
  ~ In h (dict_keys hs) ->
  get_headers conn (overridden conn hs c) h = get_headers conn c h.
Proof.
  induction hs as [|[k v] r IH]; intros c h H; simpl in *; [reflexivity|].
  unfold overridden in *. simpl. rewrite IH by tauto.
  apply get_update_other. intros ->. tauto.
Qed.

Lemma overridden_get hs : forall c h v,
  NoDup (dict_keys hs) -> In (h, v) hs ->
  get_headers conn (overridden conn hs c) h = Some v.
Proof.
  induction hs as [|[k x] r IH]; intros c h v ND I; simpl in *; [tauto|].
  inversion ND as [|? ? Hk ND']; subst.
  destruct I as [[= -> ->]|I].
  - pose proof (overridden_other r (update_header conn c h (Some v)) h Hk)
      as R.
    unfold overridden in *. simpl. rewrite R. apply get_update_same.
  - unfold overridden in *. simpl. now apply IH.
Qed.

(** X10: when the fetch raises, [Request] raises the same exception
    without writing the headers back: if the fetch left the headers as
    it found them, every overridden header still has the override as
    its value after the call. *)
Theorem Request_fetch_raises_keeps_overrides c url hdrs fmt tk return_url
    onlyParse no_content fuel c2 e :
  NoDup (dict_keys (match hdrs with None => [] | Some h => h end)) ->
  fetch conn url [("format", fmt)] return_url
    (overridden conn (effective_headers hdrs fmt) c) = (c2, Raises e) ->
  (forall h, get_headers conn c2 h =
             get_headers conn (overridden conn (effective_headers hdrs fmt) c)
               h) ->
  snd (Request loads conn c url hdrs fmt tk return_url onlyParse no_content
         fuel) = Raises e /\
  forall h v, In (h, v) (effective_headers hdrs fmt) ->
    get_headers conn
      (fst (Request loads conn c url hdrs fmt tk return_url onlyParse
              no_content fuel)) h = Some v.
Proof.
  intros ND F K. apply (effective_headers_NoDup hdrs fmt) in ND.
  unfold Request. rewrite (capture_and_override_spec conn _ c ND), F. simpl.
  split; [reflexivity|].
  intros h v I. rewrite K. now apply overridden_get.
Qed.

(** X11: for the json format [Request] calls the request method of the
    client ([make_request] or [make_requests_concurrently]) on a client
    whose [Accept] header is [application/json], also when the caller
    asked for another value of that header, provided that setting the
    base URL leaves the headers alone; what [Request] gives is the
    outcome of that call, normalized. *)
Theorem Request_json_forces_accept c url hdrs tk return_url onlyParse
    no_content fuel :
  NoDup (dict_keys (match hdrs with None => [] | Some h => h end)) ->
  (forall c u h,
     get_headers conn (update_base_url conn c u) h = get_headers conn c h) ->
  exists c1,
    get_headers conn c1 "Accept" = Some "application/json" /\
    let requested :=
      match url with
      | UrlList us =>
        if Nat.ltb 1 (List.length us)
        then make_requests_concurrently conn c1 us [("format", "json")]
               return_url false
        else make_request conn c1 [("format", "json")] false return_url true
      | UrlStr _ =>
        make_request conn c1 [("format", "json")] false return_url true
      end in
    fetch conn url [("format", "json")] return_url
      (fst (capture_and_override conn (effective_headers hdrs "json") c))
    = requested /\
    snd (Request loads conn c url hdrs "json" tk return_url onlyParse
           no_content fuel)
    = match snd requested with
      | Returns response =>
        try_except_all
          (normalize_response loads fuel response tk onlyParse no_content)
          (Returns response)
      | Raises e => Raises e
      | OutOfFuel => OutOfFuel
      end.
Proof.
  intros ND B. apply (effective_headers_NoDup hdrs "json") in ND.
  set (hs := effective_headers hdrs "json") in *.
  assert (A : get_headers conn (overridden conn hs c) "Accept"
              = Some "application/json").
  { apply overridden_get; [exact ND|].
    unfold hs, effective_headers. simpl. apply dict_set_In. }
  exists (match url with
          | UrlStr u => update_base_url conn (overridden conn hs c) u
          | UrlList _ => overridden conn hs c
          end).
  split; [destruct url; [rewrite B|]; exact A|].
  cbv zeta. unfold Request. fold hs.
  rewrite (capture_and_override_spec conn hs c ND). simpl.
  split; [destruct url; reflexivity|].
  assert (F : fetch conn url [("format", "json")] return_url
                (overridden conn hs c)
              = match url with
                | UrlList us =>
                  if Nat.ltb 1 (List.length us)
                  then make_requests_concurrently conn (overridden conn hs c)
                         us [("format", "json")] return_url false
                  else make_request conn (overridden conn hs c)
                         [("format", "json")] false return_url true
                | UrlStr u =>
                  make_request conn
                    (update_base_url conn (overridden conn hs c) u)
                    [("format", "json")] false return_url true
                end) by (destruct url; reflexivity).
  rewrite F. destruct url as [u|us].
  - destruct (make_request conn
                (update_base_url conn (overridden conn hs c) u)
                [("format", "json")] false return_url true)
      as [c2 [response| e |]]; reflexivity.
  - destruct (Nat.ltb 1 (List.length us)).
    + destruct (make_requests_concurrently conn (overridden conn hs c) us
                  [("format", "json")] return_url false)
        as [c2 [response| e |]]; reflexivity.
    + destruct (make_request conn (overridden conn hs c)
                  [("format", "json")] false return_url true)
        as [c2 [response| e |]]; reflexivity.
Qed.

(** X12: a header that is not among the overrides is written neither
    before nor after the fetch: the fetch finds it as it was, and the
    call leaves it as the fetch left it. *)
Theorem Request_leaves_other_headers c url hdrs fmt tk return_url onlyParse
    no_content fuel c2 response h :
  NoDup (dict_keys (match hdrs with None => [] | Some h => h end)) ->
  ~ In h (dict_keys (effective_headers hdrs fmt)) ->
  fetch conn url [("format", fmt)] return_url
    (fst (capture_and_override conn (effective_headers hdrs fmt) c))
  = (c2, Returns response) ->
  get_headers conn
    (fst (capture_and_override conn (effective_headers hdrs fmt) c)) h
  = get_headers conn c h /\
  get_headers conn
    (fst (Request loads conn c url hdrs fmt tk return_url onlyParse
            no_content fuel)) h
  = get_headers conn c2 h.
Proof.
  intros ND NI. apply (effective_headers_NoDup hdrs fmt) in ND.
  unfold Request. rewrite (capture_and_override_spec conn _ c ND). simpl.
  intros ->. simpl. split.
  - now apply overridden_other.
  - apply restore_headers_other; [exact loads|].
    rewrite (dict_keys_map_values
               (fun hv => get_headers conn c (fst hv))). exact NI.
Qed.

(** X13: a list that holds one URL is fetched as no URL at all: the
    request is the single one, on the base URL the client already has,
    and the URL of the list does not reach the client. *)
Theorem Request_single_url_list_ignored c u hdrs fmt tk return_url onlyParse
    no_content fuel :
  Request loads conn c (UrlList [u]) hdrs fmt tk return_url onlyParse
    no_content fuel
  = Request loads conn c (UrlList []) hdrs fmt tk return_url onlyParse
      no_content fuel /\
  fetch conn (UrlList [u]) [("format", fmt)] return_url c
  = make_request conn c [("format", fmt)] false return_url true.
Proof. split; reflexivity. Qed.

End DispatcherMore.

(** ** The request of the crypto client *)

Section CryptoRequestFacts.

Variable conn : connection.
Variable default_concurrent default_return_url default_delay_enabled : bool.

Lemma APIClient_capture hs c :
  NoDup (dict_keys hs) ->
  match hs with
  | hv :: hs' => capture_and_override conn (hv :: hs') c
  | [] => (c, [])
  end
  = (overridden conn hs c,
     map (fun hv => (fst hv, get_headers conn c (fst hv))) hs).
Proof.
  intros ND. destruct hs as [|hv hs']; [reflexivity|].
  now apply capture_and_override_spec.
Qed.

(** X14: when the fetch returns, [_make_request] has written back every
    header it overrode before it looks into the response: the headers
    have the values they had once the base URL was set, also when the
    response has no [response] key and the call ends in [KeyError]. *)
Theorem APIClient_make_request_restores_headers c url hs c2 response :
  NoDup (dict_keys hs) ->
  make_request conn (overridden conn hs (update_base_url conn c url)) []
    default_concurrent default_return_url default_delay_enabled
  = (c2, Returns response) ->
  (forall h, In h (dict_keys hs) ->
     get_headers conn
       (fst (APIClient_make_request conn default_concurrent
               default_return_url default_delay_enabled c url (Some hs))) h
     = get_headers conn (update_base_url conn c url) h) /\
  (forall d, response = VDict d -> dict_get d "response" = None ->
     snd (APIClient_make_request conn default_concurrent
            default_return_url default_delay_enabled c url (Some hs))
     = Raises KeyError).
Proof.
  intros ND F. unfold APIClient_make_request.
  rewrite (APIClient_capture hs _ ND), F. simpl. split.
  - intros h I. unfold dict_keys in I. apply in_map_iff in I.
    destruct I as ([h' v] & <- & I). simpl.
    apply restore_headers_spec.
    + exact (fun _ => None).
    + rewrite (dict_keys_map_values
                 (fun hv => get_headers conn (update_base_url conn c url)
                              (fst hv))). exact ND.
    + apply in_map_iff. exists (h', v). split; [reflexivity | exact I].
  - intros d -> E. simpl. rewrite E. reflexivity.
Qed.

(** X15: what [_make_request] returns is [None] or a value that counts
    as true: an empty string, an empty list, an empty mapping, zero and
    [False] under the [response] key all come back as [None]. *)
Theorem APIClient_make_request_never_empty c url hdrs v :
  snd (APIClient_make_request conn default_concurrent default_return_url
         default_delay_enabled c url hdrs) = Returns v ->
  v = VNone \/ truthy v = true.
Proof.
  unfold APIClient_make_request.
  set (c0 := update_base_url conn c url).
  destruct hdrs as [[|hv hs]|];
    [ | destruct (capture_and_override conn (hv :: hs) c0) as [c1 orig] | ];
    match goal with
    | |- context [make_request conn ?c1 [] _ _ _] =>
      destruct (make_request conn c1 [] default_concurrent default_return_url
                  default_delay_enabled) as [c2 [response| e |]]
    end; simpl; try discriminate;
    (destruct (getitem response "response") as [content| |]; simpl;
     try discriminate;
     destruct (truthy content) eqn:T; intros [= <-]; [now right | now left]).
Qed.

End CryptoRequestFacts.

(** ** Substrings *)

Lemma prefix_iff p : forall s,
  String.prefix p s = true <-> exists post, s = (p ++ post)%string.
Proof.
  induction p as [|a p IH]; intros s.
  - split; [intros _; now exists s | intros _; now destruct s].
  - destruct s as [|b s]; simpl.
    + split; [discriminate | intros (post & H); discriminate].
    + destruct (Ascii.ascii_dec a b) as [->|Hne].
      * rewrite IH. split; intros (post & H); exists post.
        -- now rewrite H.
        -- now injection H.
      * split; [discriminate|]. intros (post & H). injection H as H _.
        now destruct Hne.
Qed.

Lemma contains_eq p s :
  contains p s =
  if String.prefix p s then true
  else match s with
       | EmptyString => false
       | String _ rest => contains p rest
       end.
Proof. destruct s; reflexivity. Qed.

(** [contains] decides the substring relation. *)
Lemma contains_iff p : forall s, contains p s = true <-> occurs_in p s.
Proof.
  induction s as [|c s IH]; rewrite contains_eq.
  - destruct (String.prefix p "") eqn:E.
    + split; [intros _|reflexivity]. apply prefix_iff in E.
      destruct E as (post & E). now exists ""%string, post.
    + split; [discriminate|]. intros (pre & post & H).
      destruct pre as [|a pre]; [|discriminate]. simpl in H.
      assert (String.prefix p "" = true) by (apply prefix_iff; now exists post).
      congruence.
  - destruct (String.prefix p (String c s)) eqn:E.
    + split; [intros _|reflexivity]. apply prefix_iff in E.
      destruct E as (post & E). now exists ""%string, post.
    + rewrite IH. split.
      * intros (pre & post & ->). now exists (String c pre), post.
      * intros (pre & post & H). destruct pre as [|a pre].
        -- simpl in H.
           assert (String.prefix p (String c s) = true)
             by (apply prefix_iff; now exists post).
           congruence.
        -- injection H as _ ->. now exists pre, post.
Qed.

(** ** [clean_initial_content] *)

Lemma for_each_app_only {A B} (body : A -> list B -> outcome (list B))
    (f : A -> list B) xs :
  (forall x s, In x xs -> body x s = Returns (s ++ f x)) ->
  forall s, for_each xs body s = Returns (s ++ flat_map f xs).
Proof.
  induction xs as [|x r IH]; intros H s; simpl.
  - now rewrite app_nil_r.
  - rewrite H by now left. simpl.
    rewrite IH by (intros; apply H; now right). now rewrite app_assoc.
Qed.

Lemma for_each_returns_app {A B} (body : A -> list B -> outcome (list B))
    (f : A -> list B) xs :
  (forall x s r, body x s = Returns r -> r = s ++ f x) ->
  forall s r, for_each xs body s = Returns r -> r = s ++ flat_map f xs.
Proof.
  intros H. induction xs as [|x rest IH]; intros s r; simpl.
  - intros [= <-]. now rewrite app_nil_r.
  - destruct (body x s) as [s'| |] eqn:E; simpl; try discriminate.
    intros R. apply H in E. subst s'. apply IH in R.
    now rewrite R, app_assoc.
Qed.

Lemma for_each_raises_at {A S} (body : A -> S -> outcome S) (E : exn) xs x :
  (forall y s e, body y s = Raises e -> e = E) ->
  (forall y s, body y s <> OutOfFuel) ->
  In x xs -> (forall s, body x s = Raises E) ->
  forall s, for_each xs body s = Raises E.
Proof.
  intros HE HF. induction xs as [|y r IH]; intros I B s; simpl in *; [tauto|].
  destruct (body y s) as [s'| e |] eqn:Ey; simpl.
  - destruct I as [->|I]; [rewrite B in Ey; discriminate | now apply IH].
  - f_equal. exact (HE _ _ _ Ey).
  - destruct (HF _ _ Ey).
Qed.

Lemma for_each_no_fuel_end {A S} (body : A -> S -> outcome S) xs :
  (forall y s, body y s <> OutOfFuel) ->
  forall s, for_each xs body s <> OutOfFuel.
Proof.
  intros HF. induction xs as [|y r IH]; intros s; simpl; [discriminate|].
  destruct (body y s) as [s'| e |] eqn:Ey; simpl;
    [apply IH | discriminate | destruct (HF _ _ Ey)].
Qed.

Lemma for_each_raises_only {A S} (body : A -> S -> outcome S) (E : exn) xs :
  (forall y s e, body y s = Raises e -> e = E) ->
  forall s e, for_each xs body s = Raises e -> e = E.
Proof.
  intros HE. induction xs as [|y r IH]; intros s e; simpl; [discriminate|].
  destruct (body y s) as [s'| e' |] eqn:Ey; simpl.
  - apply IH.
  - intros [= <-]. exact (HE _ _ _ Ey).
  - discriminate.
Qed.

Section CleanInitialContentFacts.

Variable is_valid_url : string -> bool.

Lemma clean_item_returns kv cleaned r :
  clean_item is_valid_url kv cleaned = Returns r ->
  r = cleaned ++ cleaned_of is_valid_url kv.
Proof.
  destruct kv as [key value]. unfold clean_item, cleaned_of. simpl.
  destruct (is_valid_url key); [|now intros [= <-]].
  destruct value as [| b | z | s | l | d]; simpl; try discriminate.
  - destruct (contains "response" s); simpl; [discriminate|].
    intros [= <-]. now rewrite app_nil_r.
  - destruct (existsb _ l); simpl; [discriminate|].
    intros [= <-]. now rewrite app_nil_r.
  - destruct (dict_get d "response"); simpl; intros [= <-];
      [reflexivity | now rewrite app_nil_r].
Qed.

Lemma clean_item_raises kv cleaned e :
  clean_item is_valid_url kv cleaned = Raises e -> e = TypeError.
Proof.
  destruct kv as [key value]. unfold clean_item.
  destruct (is_valid_url key); [|discriminate].
  destruct value as [| b | z | s | l | d]; simpl;
    try (intros [= <-]; reflexivity).
  - destruct (contains "response" s); simpl;
      [intros [= <-]; reflexivity | discriminate].
  - destruct (existsb _ l); simpl;
      [intros [= <-]; reflexivity | discriminate].
  - destruct (dict_get d "response"); simpl; discriminate.
Qed.

Lemma clean_item_fuel kv cleaned :
  clean_item is_valid_url kv cleaned <> OutOfFuel.
Proof.
  destruct kv as [key value]. unfold clean_item.
  destruct (is_valid_url key); [|discriminate].
  destruct value as [| b | z | s | l | d]; simpl; try discriminate.
  - destruct (contains "response" s); simpl; discriminate.
  - destruct (existsb _ l); simpl; discriminate.
  - destruct (dict_get d "response"); simpl; discriminate.
Qed.

(** X16: when every value under a URL key is a mapping, the call raises
    nothing and returns, in the order of the input, the [response] of
    each URL entry that has one and the other items as single-entry
    mappings; a URL entry without [response] is dropped. *)
Theorem clean_initial_content_of_mappings content :
  (forall entry key value,
     In entry content -> In (key, value) entry ->
     is_valid_url key = true -> exists d, value = VDict d) ->
  clean_initial_content is_valid_url content =
  Returns (flat_map (flat_map (cleaned_of is_valid_url)) content).
Proof.
  intros H. unfold clean_initial_content.
  rewrite (for_each_app_only _ (flat_map (cleaned_of is_valid_url)));
    [reflexivity|].
  intros entry s I. apply for_each_app_only.
  intros [key value] s' I'. unfold clean_item, cleaned_of. simpl.
  destruct (is_valid_url key) eqn:U; [|reflexivity].
  destruct (H entry key value I I' U) as (d & ->). simpl.
  destruct (dict_get d "response"); simpl;
    [reflexivity | now rewrite app_nil_r].
Qed.

(** X17: a URL key whose value is a str in which [response] occurs makes
    the call raise [TypeError]: the str passes the membership test and
    cannot be indexed by a key. *)
Theorem clean_initial_content_text_raises content entry key s :
  In entry content -> In (key, VStr s) entry ->
  is_valid_url key = true -> occurs_in "response" s ->
  clean_initial_content is_valid_url content = Raises TypeError.
Proof.
  intros I I' U O. apply contains_iff in O. unfold clean_initial_content.
  apply (for_each_raises_at _ TypeError content entry).
  - intros y s0 e. apply for_each_raises_only. intros kv s1 e'.
    apply clean_item_raises.
  - intros y s0. apply for_each_no_fuel_end. intros kv s1.
    apply clean_item_fuel.
  - exact I.
  - intros s0. apply (for_each_raises_at _ TypeError entry (key, VStr s)).
    + intros kv s1 e. apply clean_item_raises.
    + intros kv s1. apply clean_item_fuel.
    + exact I'.
    + intros s1. unfold clean_item. rewrite U. simpl. rewrite O. reflexivity.
Qed.

(** X18: what the call returns has at most one element per item of the
    input, and the only exception it can raise is [TypeError]. *)
Theorem clean_initial_content_bounds content :
  (forall r, clean_initial_content is_valid_url content = Returns r ->
     List.length r <= List.length (List.concat content)) /\
  (forall e, clean_initial_content is_valid_url content = Raises e ->
     e = TypeError).
Proof.
  split.
  - intros r H. unfold clean_initial_content in H.
    apply (for_each_returns_app _
             (flat_map (cleaned_of is_valid_url))) in H.
    + subst r. simpl. clear. induction content as [|entry rest IH]; simpl.
      * lia.
      * rewrite !length_app.
        assert (L : List.length (flat_map (cleaned_of is_valid_url) entry)
                    <= List.length entry).
        { clear. induction entry as [|[k v] r IH]; simpl; [lia|].
          rewrite length_app. unfold cleaned_of at 1. simpl.
          destruct (is_valid_url k); [|simpl; lia].
          destruct v as [| | | | |d]; simpl; try lia.
          destruct (dict_get d "response"); simpl; lia. }
        lia.
    + intros entry s r0. apply for_each_returns_app.
      intros kv s1 r1. apply clean_item_returns.
  - intros e. unfold clean_initial_content. apply for_each_raises_only.
    intros entry s e'. apply for_each_raises_only.
    intros kv s1 e''. apply clean_item_raises.
Qed.

End CleanInitialContentFacts.

(** ** [find_os_in_user_agent] *)

(** X19: the operating system is the first of [Windows], [Macintosh],
    [Linux] and [CrOS], in that order, that occurs in the user agent,
    and [None] when none of them occurs. *)
Theorem find_os_in_user_agent_priority ua :
  (occurs_in "Windows" ua -> find_os_in_user_agent ua = Some "Windows") /\
  (~ occurs_in "Windows" ua -> occurs_in "Macintosh" ua ->
     find_os_in_user_agent ua = Some "macOS") /\
  (~ occurs_in "Windows" ua -> ~ occurs_in "Macintosh" ua ->
     occurs_in "Linux" ua -> find_os_in_user_agent ua = Some "Linux") /\
  (~ occurs_in "Windows" ua -> ~ occurs_in "Macintosh" ua ->
     ~ occurs_in "Linux" ua -> occurs_in "CrOS" ua ->
     find_os_in_user_agent ua = Some "Chrome OS") /\
  (~ occurs_in "Windows" ua -> ~ occurs_in "Macintosh" ua ->
     ~ occurs_in "Linux" ua -> ~ occurs_in "CrOS" ua ->
     find_os_in_user_agent ua = None).
Proof.
  unfold find_os_in_user_agent. simpl.
  pose proof (contains_iff "Windows" ua) as W.
  pose proof (contains_iff "Macintosh" ua) as M.
  pose proof (contains_iff "Linux" ua) as L.
  pose proof (contains_iff "CrOS" ua) as C.
  destruct (contains "Windows" ua), (contains "Macintosh" ua),
    (contains "Linux" ua), (contains "CrOS" ua);
    repeat split; intros; try reflexivity;
    repeat match goal with
           | H : ~ occurs_in _ _ |- _ =>
             first [ destruct H; tauto | clear H ]
           | H : occurs_in ?p ua |- _ =>
             first [ apply W in H; discriminate
                   | apply M in H; discriminate
                   | apply L in H; discriminate
                   | apply C in H; discriminate
                   | clear H ]
           end.
Qed.

(** ** [get_random_user_agent] *)

Lemma count_app d x y :
  count (d ++ [x]) y = count d y + (if String.eqb y x then 1 else 0).
Proof.
  unfold count. rewrite filter_app, length_app. simpl.
  destruct (String.eqb y x); reflexivity.
Qed.

Lemma count_tl d y : count (tl d) y <= count d y.
Proof.
  destruct d as [|x d]; simpl; [lia|]. unfold count. simpl.
  destruct (String.eqb y x); simpl; lia.
Qed.

Lemma random_choice_In xs n x : random_choice xs n = Returns x -> In x xs.
Proof.
  unfold random_choice. destruct xs as [|y r] eqn:X; [discriminate|].
  rewrite <- X. intros H. injection H as <-. apply nth_In.
  apply Nat.mod_upper_bound. rewrite X. discriminate.
Qed.

Lemma redraw_eq fuel all recent draws n choice :
  redraw (S fuel) all recent draws n choice =
  if Nat.leb 3 (count recent choice) then
    choice' <- random_choice all (draws n) ;;
    redraw fuel all recent draws (S n) choice'
  else Returns choice.
Proof. reflexivity. Qed.

Lemma redraw_returns fuel all recent draws : forall n choice r,
  redraw fuel all recent draws n choice = Returns r ->
  count recent r < 3 /\ (r = choice \/ In r all).
Proof.
  induction fuel as [|fuel IH]; intros n choice r; [discriminate|].
  rewrite redraw_eq.
  destruct (Nat.leb_spec 3 (count recent choice)) as [L|L].
  - destruct (random_choice all (draws n)) as [c'| |] eqn:E; simpl;
      try discriminate.
    intros H. apply IH in H. destruct H as [H1 [->|H2]].
    + split; [exact H1|]. right. exact (random_choice_In _ _ _ E).
    + split; [exact H1 | now right].
  - intros [= <-]. split; [exact L | now left].
Qed.

Lemma deque_append_length d x :
  List.length d <= 5 -> List.length (deque_append 5 d x) <= 5.
Proof.
  intros L. unfold deque_append.
  destruct (Nat.ltb_spec (List.length d) 5) as [H|H]; rewrite length_app; simpl.
  - lia.
  - destruct d; simpl in *; lia.
Qed.

Lemma deque_append_count d x y :
  count (deque_append 5 d x) y
  <= count d y + (if String.eqb y x then 1 else 0).
Proof.
  unfold deque_append. destruct (Nat.ltb (List.length d) 5);
    rewrite count_app; [lia|].
  pose proof (count_tl d y). lia.
Qed.

(** X20: a call that returns picks one of the configured agents, and it
    keeps the recent selections within five entries of which no agent
    holds more than three. *)
Theorem get_random_user_agent_keeps_bound fuel user_agents recent draws
    choice recent' :
  List.length recent <= 5 -> (forall a, count recent a <= 3) ->
  get_random_user_agent fuel user_agents recent draws
  = Returns (choice, recent') ->
  In choice (all_user_agents_of user_agents) /\
  List.length recent' <= 5 /\
  (forall a, count recent' a <= 3).
Proof.
  intros L B. unfold get_random_user_agent.
  destruct (random_choice (all_user_agents_of user_agents) (draws 0))
    as [c0| |] eqn:E0; simpl; try discriminate.
  destruct (redraw fuel (all_user_agents_of user_agents) recent draws 1 c0)
    as [c1| |] eqn:E1; simpl; try discriminate.
  intros [= <- <-]. apply redraw_returns in E1. destruct E1 as [C I].
  split; [|split].
  - destruct I as [->|I]; [exact (random_choice_In _ _ _ E0) | exact I].
  - now apply deque_append_length.
  - intros a. pose proof (deque_append_count recent c1 a) as D.
    specialize (B a).
    destruct (String.eqb_spec a c1) as [E|_]; [subst a; lia | lia].
Qed.

(** X21: with a single agent configured, the first three calls return
    it and the fourth never returns: the agent is then three times among
    the recent selections, and every new draw is that agent again. *)
Theorem get_random_user_agent_single_agent user_agents a fuel draws :
  all_user_agents_of user_agents <> [] ->
  (forall x, In x (all_user_agents_of user_agents) -> x = a) ->
  get_random_user_agent (S fuel) user_agents [] draws = Returns (a, [a]) /\
  get_random_user_agent (S fuel) user_agents [a] draws
  = Returns (a, [a; a]) /\
  get_random_user_agent (S fuel) user_agents [a; a] draws
  = Returns (a, [a; a; a]) /\
  get_random_user_agent fuel user_agents [a; a; a] draws = OutOfFuel.
Proof.
  intros NE H. unfold get_random_user_agent.
  assert (R : forall n,
             random_choice (all_user_agents_of user_agents) n = Returns a).
  { intros n.
    destruct (random_choice (all_user_agents_of user_agents) n)
      as [x| |] eqn:E.
    - f_equal. apply H. exact (random_choice_In _ _ _ E).
    - unfold random_choice in E.
      destruct (all_user_agents_of user_agents); [now destruct NE|].
      discriminate.
    - unfold random_choice in E.
      destruct (all_user_agents_of user_agents); discriminate. }
  assert (C1 : count [a] a = 1)
    by (unfold count; simpl; now rewrite String.eqb_refl).
  assert (C2 : count [a; a] a = 2)
    by (unfold count; simpl; now rewrite String.eqb_refl).
  assert (C3 : count [a; a; a] a = 3)
    by (unfold count; simpl; now rewrite String.eqb_refl).
  rewrite R. cbn [bind]. rewrite !redraw_eq, C1, C2. simpl.
  repeat split.
  generalize 1. induction fuel as [|fuel IH]; intros n; [reflexivity|].
  rewrite redraw_eq, C3, R. cbn [Nat.leb bind]. specialize (IH (S n)).
  destruct (redraw fuel (all_user_agents_of user_agents) [a; a; a] draws
              (S n) a); simpl in *; congruence.
Qed.

(** ** The mapping resolver, beyond the claims *)

Lemma lower_ascii_idem c : lower_ascii (lower_ascii c) = lower_ascii c.
Proof. destruct c as [[] [] [] [] [] [] [] []]; reflexivity. Qed.

Lemma isspace_lower_ascii c : isspace (lower_ascii c) = isspace c.
Proof. destruct c as [[] [] [] [] [] [] [] []]; reflexivity. Qed.

Lemma lstrip_lower s : lstrip (lower s) = lower (lstrip s).
Proof.
  induction s as [|c s IH]; simpl; [reflexivity|].
  rewrite isspace_lower_ascii. destruct (isspace c); [exact IH | reflexivity].
Qed.

Lemma rstrip_lower s : rstrip (lower s) = lower (rstrip s).
Proof.
  induction s as [|c s IH]; simpl; [reflexivity|].
  rewrite IH, isspace_lower_ascii.
  destruct (rstrip s); simpl; [destruct (isspace c)|]; reflexivity.
Qed.

Lemma strip_lower s : strip (lower s) = lower (strip s).
Proof. unfold strip. now rewrite lstrip_lower, rstrip_lower. Qed.

Lemma lstrip_blank s : blank s = true -> lstrip s = EmptyString.
Proof.
  induction s as [|c s IH]; simpl; [reflexivity|].
  destruct (isspace c); simpl; [exact IH | discriminate].
Qed.

Lemma rstrip_blank s : blank s = true -> rstrip s = EmptyString.
Proof.
  induction s as [|c s IH]; simpl; [reflexivity|].
  destruct (isspace c); simpl; [|discriminate].
  intros B. now rewrite (IH B).
Qed.

Lemma lstrip_app s t :
  lstrip (s ++ t) = if blank s then lstrip t else (lstrip s ++ t)%string.
Proof.
  induction s as [|c s IH]; simpl; [reflexivity|].
  destruct (isspace c); simpl; [exact IH | reflexivity].
Qed.

Lemma rstrip_app_blank s t :
  blank t = true -> rstrip (s ++ t) = rstrip s.
Proof.
  intros B. induction s as [|c s IH]; simpl.
  - now apply rstrip_blank.
  - now rewrite IH.
Qed.

Lemma strip_padded ws s ws' :
  blank ws = true -> blank ws' = true ->
  strip (ws ++ s ++ ws') = strip s.
Proof.
  intros B B'. unfold strip. rewrite lstrip_app, B, lstrip_app.
  destruct (blank s) eqn:Bs.
  - now rewrite (lstrip_blank ws' B'), (lstrip_blank s Bs).
  - now apply rstrip_app_blank.
Qed.

Lemma key_from_mapping_by_label a b mappings invert :
  lower (strip a) = lower (strip b) ->
  key_from_mapping a mappings invert = key_from_mapping b mappings invert.
Proof. intros E. unfold key_from_mapping. now rewrite E. Qed.

(** X22: the label is read without regard to case: two labels that
    differ only in the case of their letters resolve alike. *)
Theorem key_from_mapping_ignores_case a b mappings invert :
  lower a = lower b ->
  key_from_mapping a mappings invert = key_from_mapping b mappings invert.
Proof.
  intros E. apply key_from_mapping_by_label.
  now rewrite <- !strip_lower, E.
Qed.

(** X23: whitespace around the label does not count. *)
Theorem key_from_mapping_ignores_padding ws s ws' mappings invert :
  blank ws = true -> blank ws' = true ->
  key_from_mapping (ws ++ s ++ ws') mappings invert
  = key_from_mapping s mappings invert.
Proof.
  intros B B'. apply key_from_mapping_by_label.
  now rewrite strip_padded.
Qed.

Lemma find_last_exists {A} (f : A -> bool) l x :
  In x l -> f x = true -> exists y, find_last f l = Some y.
Proof.
  intros I E. unfold find_last.
  destruct (find f (rev l)) as [y|] eqn:F; [now exists y|].
  apply in_rev in I. pose proof (find_none _ _ F x I). congruence.
Qed.

Lemma NoDup_keys_unique {A} (d : dict_of A) k v v' :
  NoDup (dict_keys d) -> In (k, v) d -> In (k, v') d -> v = v'.
Proof.
  intros ND I I'. pose proof (dict_get_NoDup d k v ND I) as E.
  rewrite (dict_get_NoDup d k v' ND I') in E. congruence.
Qed.

(** X24: a canonical key without surrounding whitespace, and whose
    lower-case form no other key shares, resolves to itself, and with
    [invert] to the value kept under it. *)
Theorem key_from_mapping_of_key mappings k v :
  NoDup (dict_keys mappings) -> In (k, v) mappings -> strip k = k ->
  (forall k', In k' (dict_keys mappings) -> lower k' = lower k -> k' = k) ->
  key_from_mapping k mappings false = Returns (Some (Key k)) /\
  key_from_mapping k mappings true = Returns (Some (Value v)).
Proof.
  intros ND I S U. unfold key_from_mapping.
  rewrite lower_case_mappings_get, S.
  destruct (find_last_exists
              (fun kv : string * mapping_value => is_canonical (lower k) (fst kv))
              mappings (k, v) I) as ([k' v'] & F).
  { unfold is_canonical. simpl. apply String.eqb_refl. }
  rewrite F. simpl. apply find_last_In in F. destruct F as [I' C].
  unfold is_canonical in C. simpl in C. apply String.eqb_eq in C.
  assert (k' = k).
  { apply U; [|exact C]. unfold dict_keys. apply in_map_iff.
    now exists (k', v'). }
  subst k'. split; [reflexivity|].
  now rewrite (dict_get_NoDup mappings k v ND I).
Qed.

(** X25: a display name without surrounding whitespace that is recorded
    under one key only, and that is no canonical key, resolves to that
    key. *)
Theorem key_from_mapping_of_name mappings k v name invert :
  In (k, v) mappings -> In name (names_of v) -> strip name = name ->
  (forall kv, In kv mappings ->
     is_canonical (lower name) (fst kv) = false) ->
  (forall kv, In kv mappings ->
     is_synonym (lower name) (snd kv) = true -> fst kv = k) ->
  key_from_mapping name mappings invert = Returns (Some (Key k)).
Proof.
  intros I N S C U. unfold key_from_mapping.
  rewrite lower_case_mappings_get, inverse_mappings_get, S.
  rewrite (find_last_none _ _ C). simpl.
  destruct (find_last_exists
              (fun kv : string * mapping_value => is_synonym (lower name) (snd kv))
              mappings (k, v) I) as ([k' v'] & F).
  { unfold is_synonym. simpl. apply existsb_exists. exists name.
    split; [exact N | apply String.eqb_refl]. }
  rewrite F. simpl. apply find_last_In in F. destruct F as [I' E].
  pose proof (U (k', v') I' E) as Hk. simpl in Hk. now subst k'.
Qed.

(** X26: [invert] has no effect on a label that is no canonical key: a
    label matched as a display name gives the key it belongs to, never
    a value. *)
Theorem key_from_mapping_invert_on_names input_str mappings :
  (forall kv, In kv mappings ->
     is_canonical (lower (strip input_str)) (fst kv) = false) ->
  key_from_mapping input_str mappings true
  = key_from_mapping input_str mappings false /\
  (forall v, key_from_mapping input_str mappings true
             <> Returns (Some (Value v))).
Proof.
  intros C. unfold key_from_mapping.
  rewrite lower_case_mappings_get, (find_last_none _ _ C). simpl.
  split; [reflexivity|]. intros v.
  destruct (dict_get (inverse_mappings_of mappings)
              (lower (strip input_str))); discriminate.
Qed.

(** ** Further runs on concrete inputs *)

Module MoreExamples.

Import Json.




Lemma normalize_response_raises_iff_witness :
  shrinking loads /\
  weight (VDict [("response", VList [])]) <= 20 /\
  discovers loads "response" false (VDict [("response", VList [])])
    [VList []] /\
  normalize_response loads 20 (VDict [("response", VList [])]) "response"
    false false = Raises IndexError.
Proof.
  assert (D : discovers loads "response" false
                (VDict [("response", VList [])]) [VList []]).
  { apply (discovers_by_run loads "response" false 20). reflexivity. }
  assert (W : weight (VDict [("response", VList [])]) <= 20) by (simpl; lia).
  split; [exact JsonFacts.loads_shrinking|]. split; [exact W|].
  split; [exact D|].
  apply (proj2 (normalize_response_raises_iff loads JsonFacts.loads_shrinking
                  _ "response" false false 20 IndexError W)).
  repeat split. exact D.
Defined.

Lemma normalize_response_kept_wraps_witness :
  shrinking loads /\
  occurs loads "response"
    (VList [VDict [("response", VStr "5")]; VDict [("response", VStr "7")]])
    2 /\
  normalize_response loads 20
    (VList [VDict [("response", VStr "5")]; VDict [("response", VStr "7")]])
    "response" false false = Returns (VList [VInt 5; VInt 7]) /\
  normalize_response loads 20
    (VList [VDict [("response", VStr "5")]; VDict [("response", VStr "7")]])
    "response" false true
  = Returns (VList [VDict [("response", VInt 5)];
                    VDict [("response", VInt 7)]]).
Proof.
  assert (O : occurs loads "response"
                (VList [VDict [("response", VStr "5")];
                        VDict [("response", VStr "7")]]) 2).
  { exists [VStr "5"; VStr "7"]. split; [|reflexivity].
    apply (discovers_by_run loads "response" false 20). reflexivity. }
  split; [exact JsonFacts.loads_shrinking|]. split; [exact O|].
  split; [reflexivity|].
  apply (normalize_response_kept_wraps loads JsonFacts.loads_shrinking
           _ "response" 2 [VInt 5; VInt 7] 20 O);
    [discriminate | simpl; lia | reflexivity].
Defined.


Lemma deep_parse_json_keeps_shape_witness :
  deep_parse_json loads 40 (VDict [("a", VStr "1"); ("b", VStr "x")])
  = Returns (VDict [("a", VInt 1); ("b", VStr "x")]) /\
  exists d',
    VDict [("a", VInt 1); ("b", VStr "x")] = VDict d' /\
    dict_keys d' = dict_keys [("a", VStr "1"); ("b", VStr "x")].
Proof.
  split; [reflexivity|].
  exact (deep_parse_json_keeps_shape loads 40
           (VDict [("a", VStr "1"); ("b", VStr "x")])
           (VDict [("a", VInt 1); ("b", VStr "x")]) eq_refl).
Defined.

Lemma deep_parse_json_unchanged_iff_witness :
  shrinking loads /\
  weight (VList [VStr "abc"; VInt 3]) <= 20 /\
  irreducible loads (VList [VStr "abc"; VInt 3]).
Proof.
  split; [exact JsonFacts.loads_shrinking|].
  assert (W : weight (VList [VStr "abc"; VInt 3]) <= 20) by (simpl; lia).
  split; [exact W|].
  apply (proj1 (deep_parse_json_unchanged_iff loads JsonFacts.loads_shrinking
                  _ 20 W)). reflexivity.
Defined.

Lemma normalize_response_of_text_witness :
  shrinking loads /\
  loads (text "{'response': '7'}") = Some (VDict [("response", VStr "7")]) /\
  weight (VStr (text "{'response': '7'}")) <= 40 /\
  normalize_response loads 40 (VStr (text "{'response': '7'}")) "response"
    false false
  = normalize_response loads 40 (VDict [("response", VStr "7")]) "response"
      false false.
Proof.
  split; [exact JsonFacts.loads_shrinking|]. split; [reflexivity|].
  split; [simpl; lia|].
  apply (normalize_response_of_text loads JsonFacts.loads_shrinking);
    [reflexivity | simpl; lia].
Defined.

Lemma Request_fetch_raises_keeps_overrides_witness :
  NoDup (dict_keys [("User-Agent", "probe")]) /\
  snd (Request loads stub_connection client_down (UrlStr "https://a")
         (Some [("User-Agent", "probe")]) "json" "response" true false false
         20) = Raises KeyError /\
  get_headers stub_connection
    (fst (Request loads stub_connection client_down (UrlStr "https://a")
            (Some [("User-Agent", "probe")]) "json" "response" true false
            false 20)) "Accept" = Some "application/json".
Proof.
  assert (ND : NoDup (dict_keys [("User-Agent", "probe")])).
  { simpl. constructor; [simpl; tauto | constructor]. }
  split; [exact ND|].
  destruct (Request_fetch_raises_keeps_overrides loads stub_connection
              client_down (UrlStr "https://a")
              (Some [("User-Agent", "probe")]) "json" "response" true false
              false 20
              (stub_update_base_url
                 (overridden stub_connection
                    (effective_headers (Some [("User-Agent", "probe")])
                       "json") client_down) "https://a")
              KeyError ND eq_refl (fun _ => eq_refl)) as [H1 H2].
  split; [exact H1|]. apply H2. simpl. tauto.
Defined.

Lemma Request_json_forces_accept_witness :
  NoDup (dict_keys [("Accept", "text/csv")]) /\
  (forall c u h,
     get_headers stub_connection (update_base_url stub_connection c u) h
     = get_headers stub_connection c h) /\
  exists c1,
    get_headers stub_connection c1 "Accept" = Some "application/json" /\
    fetch stub_connection (UrlStr "https://a") [("format", "json")] true
      (fst (capture_and_override stub_connection
              (effective_headers (Some [("Accept", "text/csv")]) "json")
              client0))
    = make_request stub_connection c1 [("format", "json")] false true true.
Proof.
  assert (ND : NoDup (dict_keys [("Accept", "text/csv")])).
  { simpl. constructor; [simpl; tauto | constructor]. }
  assert (B : forall c u h,
             get_headers stub_connection
               (update_base_url stub_connection c u) h
             = get_headers stub_connection c h) by reflexivity.
  split; [exact ND|]. split; [exact B|].
  destruct (Request_json_forces_accept loads stub_connection client0
              (UrlStr "https://a") (Some [("Accept", "text/csv")])
              "response" true false false 20 ND B) as (c1 & A & F & _).
  exists c1. split; [exact A | exact F].
Defined.

Lemma Request_leaves_other_headers_witness :
  NoDup (dict_keys [("User-Agent", "probe")]) /\
  ~ In "Accept"
      (dict_keys (effective_headers (Some [("User-Agent", "probe")]) "html")) /\
  get_headers stub_connection
    (fst (Request loads stub_connection client0 (UrlStr "https://a")
            (Some [("User-Agent", "probe")]) "html" "response" true false
            false 20)) "Accept" = Some "text/html".
Proof.
  assert (ND : NoDup (dict_keys [("User-Agent", "probe")])).
  { simpl. constructor; [simpl; tauto | constructor]. }
  assert (NI : ~ In "Accept"
                 (dict_keys (effective_headers
                               (Some [("User-Agent", "probe")]) "html"))).
  { simpl. intros [H|[]]. discriminate. }
  split; [exact ND|]. split; [exact NI|].
  destruct (Request_leaves_other_headers loads stub_connection client0
              (UrlStr "https://a") (Some [("User-Agent", "probe")]) "html"
              "response" true false false 20 _ _ "Accept" ND NI eq_refl)
    as [_ H].
  exact (eq_trans H eq_refl).
Defined.

Lemma APIClient_make_request_restores_headers_witness :
  NoDup (dict_keys [("Accept", "text/csv")]) /\
  get_headers stub_connection
    (fst (APIClient_make_request stub_connection false true true
            (client_replying (VDict [("data", VInt 1)])) "https://a"
            (Some [("Accept", "text/csv")]))) "Accept"
  = Some "text/html" /\
  snd (APIClient_make_request stub_connection false true true
         (client_replying (VDict [("data", VInt 1)])) "https://a"
         (Some [("Accept", "text/csv")])) = Raises KeyError.
Proof.
  assert (ND : NoDup (dict_keys [("Accept", "text/csv")])).
  { simpl. constructor; [simpl; tauto | constructor]. }
  split; [exact ND|].
  destruct (APIClient_make_request_restores_headers stub_connection
              false true true (client_replying (VDict [("data", VInt 1)]))
              "https://a" [("Accept", "text/csv")] _ _ ND eq_refl)
    as [H1 H2].
  split.
  - refine (eq_trans (H1 "Accept" _) eq_refl). simpl; tauto.
  - apply (H2 [("data", VInt 1)]); reflexivity.
Defined.

Lemma APIClient_make_request_never_empty_witness :
  snd (APIClient_make_request stub_connection false true true
         (client_replying (VDict [("response", VStr "")])) "https://a" None)
  = Returns VNone /\
  (VNone = VNone \/ truthy VNone = true).
Proof.
  split; [reflexivity|].
  exact (APIClient_make_request_never_empty stub_connection false true true
           (client_replying (VDict [("response", VStr "")])) "https://a"
           None VNone eq_refl).
Defined.

Lemma clean_initial_content_of_mappings_witness :
  clean_initial_content starts_with_http
    [[("https://a", VDict [("response", VInt 1)]); ("note", VStr "x")];
     [("https://b", VDict [("status", VInt 404)])]]
  = Returns [VInt 1; VDict [("note", VStr "x")]].
Proof.
  rewrite (clean_initial_content_of_mappings starts_with_http).
  - reflexivity.
  - simpl. intros entry key value [<-|[<-|[]]]; simpl.
    + intros [[= <- <-]|[[= <- <-]|[]]]; [eauto | discriminate].
    + intros [[= <- <-]|[]]; eauto.
Defined.

Lemma clean_initial_content_text_raises_witness :
  occurs_in "response" "no response yet" /\
  clean_initial_content starts_with_http
    [[("note", VInt 1)]; [("https://a", VStr "no response yet")]]
  = Raises TypeError.
Proof.
  assert (O : occurs_in "response" "no response yet").
  { exists "no ", " yet". reflexivity. }
  split; [exact O|].
  apply (clean_initial_content_text_raises starts_with_http _
           [("https://a", VStr "no response yet")] "https://a"
           "no response yet"); simpl; auto.
Defined.

Lemma clean_initial_content_bounds_witness :
  clean_initial_content starts_with_http
    [[("https://a", VDict [("status", VInt 404)]); ("note", VStr "x")]]
  = Returns [VDict [("note", VStr "x")]] /\
  List.length [VDict [("note", VStr "x")]] <=
  List.length
    (List.concat
       [[("https://a", VDict [("status", VInt 404)]); ("note", VStr "x")]]).
Proof.
  split; [reflexivity|].
  apply (proj1 (clean_initial_content_bounds starts_with_http _)).
  reflexivity.
Defined.

Lemma find_os_in_user_agent_priority_witness :
  occurs_in "Linux" "Mozilla/5.0 (X11; Linux x86_64; CrOS)" /\
  ~ occurs_in "Windows" "Mozilla/5.0 (X11; Linux x86_64; CrOS)" /\
  ~ occurs_in "Macintosh" "Mozilla/5.0 (X11; Linux x86_64; CrOS)" /\
  find_os_in_user_agent "Mozilla/5.0 (X11; Linux x86_64; CrOS)"
  = Some "Linux".
Proof.
  assert (L : occurs_in "Linux" "Mozilla/5.0 (X11; Linux x86_64; CrOS)").
  { exists "Mozilla/5.0 (X11; ", " x86_64; CrOS)". reflexivity. }
  assert (W : ~ occurs_in "Windows" "Mozilla/5.0 (X11; Linux x86_64; CrOS)").
  { intros H. apply contains_iff in H. discriminate. }
  assert (M : ~ occurs_in "Macintosh"
                "Mozilla/5.0 (X11; Linux x86_64; CrOS)").
  { intros H. apply contains_iff in H. discriminate. }
  split; [exact L|]. split; [exact W|]. split; [exact M|].
  exact (proj1 (proj2 (proj2 (find_os_in_user_agent_priority
                                "Mozilla/5.0 (X11; Linux x86_64; CrOS)")))
           W M L).
Defined.

Lemma get_random_user_agent_keeps_bound_witness :
  List.length ["agent-a"; "agent-a"; "agent-a"; "agent-b"; "agent-b"] <= 5 /\
  get_random_user_agent 10 two_agents
    ["agent-a"; "agent-a"; "agent-a"; "agent-b"; "agent-b"] (fun n => n)
  = Returns ("agent-b",
             ["agent-a"; "agent-a"; "agent-b"; "agent-b"; "agent-b"]) /\
  In "agent-b" (all_user_agents_of two_agents) /\
  forall a,
    count ["agent-a"; "agent-a"; "agent-b"; "agent-b"; "agent-b"] a <= 3.
Proof.
  assert (B : forall a,
             count ["agent-a"; "agent-a"; "agent-a"; "agent-b"; "agent-b"] a
             <= 3).
  { intros a. unfold count. simpl.
    destruct (String.eqb_spec a "agent-a") as [->|_];
      [simpl; lia | destruct (String.eqb a "agent-b"); simpl; lia]. }
  split; [simpl; lia|]. split; [reflexivity|].
  destruct (get_random_user_agent_keeps_bound 10 two_agents
              ["agent-a"; "agent-a"; "agent-a"; "agent-b"; "agent-b"]
              (fun n => n) "agent-b"
              ["agent-a"; "agent-a"; "agent-b"; "agent-b"; "agent-b"]
              ltac:(simpl; lia) B eq_refl) as (H1 & _ & H3).
  split; [exact H1 | exact H3].
Defined.

Lemma get_random_user_agent_single_agent_witness :
  all_user_agents_of one_agent <> [] /\
  get_random_user_agent 1000 one_agent ["agent-a"; "agent-a"; "agent-a"]
    (fun n => 7 * n) = OutOfFuel.
Proof.
  assert (NE : all_user_agents_of one_agent <> []) by discriminate.
  split; [exact NE|].
  apply (get_random_user_agent_single_agent one_agent "agent-a" 1000
           (fun n => 7 * n) NE).
  simpl. intros x [<-|[]]. reflexivity.
Defined.

Lemma key_from_mapping_ignores_case_witness :
  lower "BiTcOiN" = lower "bitcoin" /\
  key_from_mapping "BiTcOiN" [("btc", Single "Bitcoin")] false
  = key_from_mapping "bitcoin" [("btc", Single "Bitcoin")] false.
Proof.
  split; [reflexivity|].
  exact (key_from_mapping_ignores_case "BiTcOiN" "bitcoin" _ false eq_refl).
Defined.

Lemma key_from_mapping_ignores_padding_witness :
  blank "  " = true /\
  key_from_mapping ("  " ++ "btc" ++ "  ") [("btc", Single "Bitcoin")] true
  = key_from_mapping "btc" [("btc", Single "Bitcoin")] true.
Proof.
  split; [reflexivity|].
  exact (key_from_mapping_ignores_padding "  " "btc" "  " _ true
           eq_refl eq_refl).
Defined.

Lemma key_from_mapping_of_key_witness :
  NoDup (dict_keys [("BTC", Single "Bitcoin"); ("ETH", Single "Ether")]) /\
  key_from_mapping "ETH" [("BTC", Single "Bitcoin"); ("ETH", Single "Ether")]
    false = Returns (Some (Key "ETH")) /\
  key_from_mapping "ETH" [("BTC", Single "Bitcoin"); ("ETH", Single "Ether")]
    true = Returns (Some (Value (Single "Ether"))).
Proof.
  assert (ND : NoDup (dict_keys [("BTC", Single "Bitcoin");
                                 ("ETH", Single "Ether")])).
  { simpl. repeat constructor; simpl; intuition discriminate. }
  split; [exact ND|].
  apply (key_from_mapping_of_key _ "ETH" (Single "Ether") ND).
  - simpl. tauto.
  - reflexivity.
  - simpl. intros k' [<-|[<-|[]]]; [discriminate | reflexivity].
Defined.

Lemma key_from_mapping_of_name_witness :
  key_from_mapping "Ether"
    [("BTC", Single "Bitcoin"); ("ETH", Synonyms ["Ethereum"; "Ether"])] true
  = Returns (Some (Key "ETH")).
Proof.
  apply (key_from_mapping_of_name _ "ETH" (Synonyms ["Ethereum"; "Ether"])
           "Ether" true).
  - simpl. tauto.
  - simpl. tauto.
  - reflexivity.
  - simpl. intros kv [<-|[<-|[]]]; reflexivity.
  - simpl. intros kv [<-|[<-|[]]]; [discriminate | reflexivity].
Defined.

Lemma key_from_mapping_invert_on_names_witness :
  key_from_mapping "bitcoin" [("BTC", Single "Bitcoin")] true
  = key_from_mapping "bitcoin" [("BTC", Single "Bitcoin")] false.
Proof.
  apply (key_from_mapping_invert_on_names "bitcoin"
           [("BTC", Single "Bitcoin")]).
  simpl. intros kv [<-|[]]. reflexivity.
Defined.

End MoreExamples.
